(** * gamdl-interface: the pty session manager of [app.py]

    A shallow embedding of the Flask-SocketIO application in [src/app.py]:
    the module-level dictionary [child_processes], the background reader
    [read_gamdl_output] and the four socket event handlers.

    The application runs with [async_mode='threading']: every event handler
    and every output reader is a thread, and all of them share
    [child_processes].  The embedding therefore is a small-step machine.
    Each thread is a frame (function, arguments, locals, program point) and
    one step of a thread executes one statement of the source; the program
    points are named after the statement they stand in front of and carry the
    source line in their comment.  Everything the operating system or the
    network decides (what [read_nonblocking] returns, whether [isalive()] is
    true, whether a call on the pexpect object raises) is an input of the
    step, of type [env].

    Not modelled: [print] (server log only), the HTTP route [index], the
    duration of [socketio.sleep] (a sleep is a point where other threads
    run, which every step boundary already is).  [socketio.emit], [emit],
    [isalive], [join_room] and [leave_room] are taken not to raise. *)

From stdpp Require Import gmap strings list fin_maps.

Open Scope string_scope.
Open Scope list_scope.
Open Scope nat_scope.

(** ** Data *)

(** A pexpect child is a Python object; the dictionary and the threads hold
    references to it.  A reference is an index into the [heap] of the world. *)
Abbreviation handle := nat (only parsing).
(** Threads are numbered in order of creation. *)
Abbreviation tid := nat (only parsing).

(** The exception classes the source distinguishes.  [pexpect.TIMEOUT] and
    [pexpect.EOF] are subclasses of [pexpect.exceptions.ExceptionPexpect]. *)
Inductive exn_class :=
  | TIMEOUT | EOF | ExceptionPexpect | KeyError | OtherException.

Record exn := Exn { e_class : exn_class; e_str : string }.

Definition is_ExceptionPexpect (c : exn_class) : bool :=
  match c with
  | TIMEOUT | EOF | ExceptionPexpect => true
  | KeyError | OtherException => false
  end.

(** The four outbound events, with their payload field. *)
Inductive message :=
  | gamdl_output (data : string)
  | info_message (message : string)
  | error_message (error : string)
  | download_complete (message : string).

(** One call of [socketio.emit(..., room=sid)].  [em_by] is the thread that
    made the call; it is not sent, it only lets statements speak about the
    messages of one reader. *)
Record emitted := Emitted { em_by : tid; em_room : string; em_msg : message }.

(** The methods of the pexpect object the source calls. *)
Inductive pcall :=
  | sendeof
  | terminate (force : bool)
  | close
  | send (s : string).

(** A [pexpect.spawn] object: how it was spawned, and what was done to it. *)
Record spawn := Spawn {
  command : string;
  args : list string;
  echo : bool;
  dimensions : nat * nat;
  env_TERM : string;
  calls : list pcall;      (* every method call made on the object, in order *)
  closed : bool            (* set by a [close()] that returned *)
}.

Definition GAMDL_COOKIES_PATH : string := "/app/config/cookies.txt".
Definition GAMDL_OUTPUT_PATH : string := "/app/music".

(** ** Frames *)

(** Program points of [read_gamdl_output]. *)
Inductive pump_pc :=
  | PRead          (* l.38-40: read_nonblocking, emit if non-empty *)
  | PCheckAlive    (* l.43: in [except pexpect.TIMEOUT] *)
  | PFinally       (* l.61: [if child_process.isalive()] *)
  | PClose         (* l.63: [child_process.close()] *)
  | PCheckReg      (* l.64: [if sid in child_processes] *)
  | PDel           (* l.66: [del child_processes[sid]] *)
  | PEmit.         (* l.68: emit download_complete *)

(** Program points of [handle_disconnect]; the local [child_process] is
    carried by the points that use it. *)
Inductive disc_pc :=
  | DPop                                   (* l.83 *)
  | DGuard (child_process : option handle) (* l.84 *)
  | DEof (child_process : handle)          (* l.88 *)
  | DTerm (child_process : handle)         (* l.90, after the sleep of l.89 *)
  | DKill (child_process : handle)         (* l.92, after the sleep of l.91 *)
  | DLeave.                                (* l.95 *)

(** Program points of [handle_start_download]. *)
Inductive start_pc :=
  | SCheck                     (* l.100-102 *)
  | SUrl                       (* l.107-110 *)
  | SSpawn                     (* l.113-138 *)
  | SAssign (child : handle)   (* l.139 *)
  | SThread (child : handle)   (* l.141-143 *)
  | SEmit                      (* l.145 *)
  | SExcept (e : exn)          (* l.147-150 and l.153-156 *)
  | SExCheck                   (* l.151 and l.157 *)
  | SExDel.                    (* l.152 and l.158 *)

(** Program points of [handle_send_input]. *)
Inductive input_pc :=
  | ICheck                          (* l.163-171, and the else branch l.183 *)
  | ISend (child_process : handle). (* l.176, and its handler l.177-180 *)

(** [data_dict.get('url')] and [data_dict.get('input')] are [None] when the
    key is absent; the payload of a request is that optional string. *)
Inductive frame :=
  | read_gamdl_output (sid : string) (child_process : handle) (pc : pump_pc)
  | handle_connect (sid : string)
  | handle_disconnect (sid : string) (pc : disc_pc)
  | handle_start_download (sid : string) (url : option string) (pc : start_pc)
  | handle_send_input (sid : string) (input : option string) (pc : input_pc).

Inductive thread :=
  | Running (f : frame)
  | Returned (f : frame)             (* the function returned, from [f] *)
  | Raised (f : frame) (e : exn).    (* an exception left the function at [f] *)

(** ** The world *)

Record World := MkWorld {
  child_processes : gmap string handle;   (* l.18 *)
  heap : list spawn;                      (* the pexpect objects *)
  threads : list thread;
  rooms : gset string;                    (* sessions that joined their room *)
  outbox : list emitted;                  (* every emit, oldest first *)
  pty_reads : list (tid * string)         (* every string read_nonblocking
                                             returned, with the reader *)
}.

Definition init : World :=
  {| child_processes := ∅; heap := []; threads := []; rooms := ∅;
     outbox := []; pty_reads := [] |}.

Definition set_child_processes (r : gmap string handle) (w : World) : World :=
  {| child_processes := r; heap := heap w; threads := threads w;
     rooms := rooms w; outbox := outbox w; pty_reads := pty_reads w |}.

Definition set_heap (h : list spawn) (w : World) : World :=
  {| child_processes := child_processes w; heap := h; threads := threads w;
     rooms := rooms w; outbox := outbox w; pty_reads := pty_reads w |}.

Definition set_threads (t : list thread) (w : World) : World :=
  {| child_processes := child_processes w; heap := heap w; threads := t;
     rooms := rooms w; outbox := outbox w; pty_reads := pty_reads w |}.

Definition set_rooms (r : gset string) (w : World) : World :=
  {| child_processes := child_processes w; heap := heap w;
     threads := threads w; rooms := r; outbox := outbox w;
     pty_reads := pty_reads w |}.

Definition set_outbox (o : list emitted) (w : World) : World :=
  {| child_processes := child_processes w; heap := heap w;
     threads := threads w; rooms := rooms w; outbox := o;
     pty_reads := pty_reads w |}.

Definition set_pty_reads (r : list (tid * string)) (w : World) : World :=
  {| child_processes := child_processes w; heap := heap w;
     threads := threads w; rooms := rooms w; outbox := outbox w;
     pty_reads := r |}.

(** [socketio.emit(event, payload, room=sid)] called by thread [t]. *)
Definition emit (t : tid) (m : message) (sid : string) (w : World) : World :=
  set_outbox (outbox w ++ [Emitted t sid m]) w.

Definition record_call (c : pcall) (o : spawn) : spawn :=
  {| command := command o; args := args o; echo := echo o;
     dimensions := dimensions o; env_TERM := env_TERM o;
     calls := calls o ++ [c]; closed := closed o |}.

Definition mark_closed (o : spawn) : spawn :=
  {| command := command o; args := args o; echo := echo o;
     dimensions := dimensions o; env_TERM := env_TERM o;
     calls := calls o; closed := true |}.

(** A method call on the object behind [h]. *)
Definition call (h : handle) (c : pcall) (w : World) : World :=
  set_heap (alter (record_call c) h (heap w)) w.

(** ** What the outside decides in one step *)

Record env := Env {
  alive : bool;           (* the answer of [isalive()], if the step asks *)
  raises : option exn;    (* the exception of the external call, if any *)
  reads : string          (* what [read_nonblocking] returns, if it returns *)
}.

(** Python truth value of a string *)
Definition truthy (s : string) : bool :=
  match s with
  | EmptyString => false
  | String _ _ => true
  end.

(** Python truth value of [data_dict.get(key)] *)
Definition truthy_opt (o : option string) : bool :=
  match o with
  | None => false
  | Some s => truthy s
  end.

(** ** [read_gamdl_output], l.27-69 *)

Definition pump_step (t : tid) (e : env) (sid : string)
    (child_process : handle) (pc : pump_pc) (w : World) : thread * World :=
  let at_ := read_gamdl_output sid child_process in
  match pc with
  | PRead =>
      match raises e with
      | None =>
          let w := set_pty_reads (pty_reads w ++ [(t, reads e)]) w in
          (Running (at_ PRead),
           if truthy (reads e)
           then emit t (gamdl_output (reads e)) sid w
           else w)
      | Some x =>
          match e_class x with
          | TIMEOUT => (Running (at_ PCheckAlive), w)
          | EOF =>
              (Running (at_ PFinally),
               emit t (info_message "gamdl process finished (EOF).") sid w)
          | _ =>
              let error_msg :=
                "Error reading gamdl output for SID " +:+ sid +:+ ": "
                  +:+ e_str x in
              (Running (at_ PFinally), emit t (error_message error_msg) sid w)
          end
      end
  | PCheckAlive =>
      if negb (alive e)
      then (Running (at_ PFinally),
            emit t (info_message "gamdl process appears to have exited.")
              sid w)
      else (Running (at_ PRead), w)
  | PFinally =>
      if alive e
      then (Running (at_ PClose), w)
      else (Running (at_ PCheckReg), w)
  | PClose =>
      let w := call child_process close w in
      match raises e with
      | None =>
          (Running (at_ PCheckReg),
           set_heap (alter mark_closed child_process (heap w)) w)
      | Some x => (Raised (at_ PClose) x, w)
      end
  | PCheckReg =>
      if bool_decide (is_Some (child_processes w !! sid))
      then (Running (at_ PDel), w)
      else (Running (at_ PEmit), w)
  | PDel =>
      match child_processes w !! sid with
      | Some _ =>
          (Running (at_ PEmit),
           set_child_processes (delete sid (child_processes w)) w)
      | None => (Raised (at_ PDel) (Exn KeyError ("'" +:+ sid +:+ "'")), w)
      end
  | PEmit =>
      (Returned (at_ PEmit),
       emit t (download_complete "Download process and cleanup finished.")
         sid w)
  end.

(** ** [handle_connect], l.72-75 *)

Definition connect_step (sid : string) (w : World) : thread * World :=
  (Returned (handle_connect sid), set_rooms ({[sid]} ∪ rooms w) w).

(** ** [handle_disconnect], l.80-95 *)

(** One line of the escalation: [if child_process.isalive(): child_process.c]
    inside the [try] of l.86; an exception goes to the [except] of l.93,
    which only prints, and control reaches l.95. *)
Definition escalate (e : env) (h : handle) (c : pcall) (next : disc_pc)
    (w : World) : disc_pc * World :=
  if alive e
  then match raises e with
       | None => (next, call h c w)
       | Some _ => (DLeave, call h c w)
       end
  else (next, w).

Definition disconnect_step (e : env) (sid : string) (pc : disc_pc)
    (w : World) : thread * World :=
  let at_ := handle_disconnect sid in
  match pc with
  | DPop =>
      (Running (at_ (DGuard (child_processes w !! sid))),
       set_child_processes (delete sid (child_processes w)) w)
  | DGuard None => (Running (at_ DLeave), w)
  | DGuard (Some h) =>
      if alive e then (Running (at_ (DEof h)), w)
      else (Running (at_ DLeave), w)
  | DEof h =>
      let '(pc', w') := escalate e h sendeof (DTerm h) w in
      (Running (at_ pc'), w')
  | DTerm h =>
      let '(pc', w') := escalate e h (terminate false) (DKill h) w in
      (Running (at_ pc'), w')
  | DKill h =>
      let '(pc', w') := escalate e h (terminate true) DLeave w in
      (Running (at_ pc'), w')
  | DLeave => (Returned (at_ DLeave), set_rooms (rooms w ∖ {[sid]}) w)
  end.

(** ** [handle_start_download], l.98-158 *)

Definition already_running : message :=
  error_message "A download process is already running for your session.".

Definition no_url : message := error_message "No Apple Music URL provided.".

Definition failed_to_start (x : exn) : message :=
  error_message
    ("Failed to start gamdl: " +:+ e_str x
       +:+ ". Ensure 'gamdl' is installed and in your system's PATH.").

Definition unexpected_error (x : exn) : message :=
  error_message
    ("An unexpected error occurred while trying to start gamdl: "
       +:+ e_str x).

Definition started (apple_music_url : string) : message :=
  info_message
    ("gamdl process started for " +:+ apple_music_url
       +:+ ". Waiting for output...").

(** The object [pexpect.spawn('gamdl', args=..., ...)] of l.132-138. *)
Definition new_child (apple_music_url : string) : spawn :=
  {| command := "gamdl";
     args := ["--cookies-path"; GAMDL_COOKIES_PATH;
              "--output-path"; GAMDL_OUTPUT_PATH;
              "--mp4decrypt-path"; "/usr/local/bin/mp4decrypt";
              apple_music_url];
     echo := false;
     dimensions := (24, 80);
     env_TERM := "xterm-256color";
     calls := [];
     closed := false |}.

Definition start_step (t : tid) (e : env) (sid : string)
    (url : option string) (pc : start_pc) (w : World) : thread * World :=
  let at_ := handle_start_download sid url in
  match pc with
  | SCheck =>
      match child_processes w !! sid with
      | Some _ =>
          if alive e
          then (Returned (at_ SCheck), emit t already_running sid w)
          else (Running (at_ SUrl), w)
      | None => (Running (at_ SUrl), w)
      end
  | SUrl =>
      if negb (truthy_opt url)
      then (Returned (at_ SUrl), emit t no_url sid w)
      else (Running (at_ SSpawn), w)
  | SSpawn =>
      match raises e with
      | None =>
          (Running (at_ (SAssign (length (heap w)))),
           set_heap (heap w ++ [new_child (default "" url)]) w)
      | Some x => (Running (at_ (SExcept x)), w)
      end
  | SAssign child =>
      (Running (at_ (SThread child)),
       set_child_processes (<[sid := child]> (child_processes w)) w)
  | SThread child =>
      (Running (at_ SEmit),
       set_threads (threads w ++ [Running (read_gamdl_output sid child PRead)])
         w)
  | SEmit => (Returned (at_ SEmit), emit t (started (default "" url)) sid w)
  | SExcept x =>
      (Running (at_ SExCheck),
       emit t (if is_ExceptionPexpect (e_class x)
               then failed_to_start x else unexpected_error x) sid w)
  | SExCheck =>
      if bool_decide (is_Some (child_processes w !! sid))
      then (Running (at_ SExDel), w)
      else (Returned (at_ SExCheck), w)
  | SExDel =>
      match child_processes w !! sid with
      | Some _ =>
          (Returned (at_ SExDel),
           set_child_processes (delete sid (child_processes w)) w)
      | None => (Raised (at_ SExDel) (Exn KeyError ("'" +:+ sid +:+ "'")), w)
      end
  end.

(** ** [handle_send_input], l.161-184 *)

Definition no_active_process : message :=
  info_message
    "No active gamdl process for your session, or process has ended. Input not sent.".

Definition input_step (t : tid) (e : env) (sid : string)
    (input : option string) (pc : input_pc) (w : World) : thread * World :=
  let at_ := handle_send_input sid input in
  match pc with
  | ICheck =>
      match input with
      | None => (Returned (at_ ICheck), w)
      | Some _ =>
          match child_processes w !! sid with
          | Some h =>
              if alive e then (Running (at_ (ISend h)), w)
              else (Returned (at_ ICheck), emit t no_active_process sid w)
          | None => (Returned (at_ ICheck), emit t no_active_process sid w)
          end
      end
  | ISend h =>
      let w := call h (send (default "" input)) w in
      match raises e with
      | None => (Returned (at_ (ISend h)), w)
      | Some x =>
          let error_msg :=
            "Error sending input to gamdl for SID " +:+ sid +:+ ": "
              +:+ e_str x in
          (Returned (at_ (ISend h)), emit t (error_message error_msg) sid w)
      end
  end.

(** ** The scheduler *)

Definition frame_step (t : tid) (e : env) (f : frame) (w : World)
    : thread * World :=
  match f with
  | read_gamdl_output sid child_process pc =>
      pump_step t e sid child_process pc w
  | handle_connect sid => connect_step sid w
  | handle_disconnect sid pc => disconnect_step e sid pc w
  | handle_start_download sid url pc => start_step t e sid url pc w
  | handle_send_input sid input pc => input_step t e sid input pc w
  end.

(** The events a client can send; [request.sid] is the session. *)
Inductive request :=
  | connect (sid : string)
  | disconnect (sid : string)
  | start_download (sid : string) (url : option string)
  | send_input (sid : string) (input : option string).

Definition entry (r : request) : frame :=
  match r with
  | connect sid => handle_connect sid
  | disconnect sid => handle_disconnect sid DPop
  | start_download sid url => handle_start_download sid url SCheck
  | send_input sid input => handle_send_input sid input ICheck
  end.

(** What can happen next: a request arrives and gets its handler thread, or
    thread [t] executes its next statement under [e]. *)
Inductive event :=
  | Arrive (r : request)
  | Run (t : tid) (e : env).

Definition step (w : World) (ev : event) : World :=
  match ev with
  | Arrive r => set_threads (threads w ++ [Running (entry r)]) w
  | Run t e =>
      match threads w !! t with
      | Some (Running f) =>
          let '(th, w') := frame_step t e f w in
          set_threads (<[t := th]> (threads w')) w'
      | _ => w
      end
  end.

Definition run (evs : list event) (w : World) : World := foldl step w evs.

Definition reachable (w : World) : Prop := ∃ evs, w = run evs init.

(** Thread [t] alone executes one statement per element of [es]. *)
Definition run_thread (t : tid) (es : list env) (w : World) : World :=
  run (Run t <$> es) w.

(** A request arrives and its handler runs without interleaving. *)
Definition serve (r : request) (es : list env) (w : World) : World :=
  run_thread (length (threads w)) es (step w (Arrive r)).

(** ** Vocabulary of the statements *)

(** The statements of one thread, without the bookkeeping of the thread
    table: the status of the thread and the world it leaves. *)
Fixpoint iter (t : tid) (es : list env) (th : thread) (w : World)
    : thread * World :=
  match es, th with
  | e :: es', Running f =>
      let '(th', w') := frame_step t e f w in iter t es' th' w'
  | _, _ => (th, w)
  end.

Definition put_thread (t : tid) (th : thread) (w : World) : World :=
  set_threads (<[t := th]> (threads w)) w.

(** The only statement that creates a thread is l.141-143. *)
Definition forks (f : frame) : list thread :=
  match f with
  | handle_start_download sid url (SThread child) =>
      [Running (read_gamdl_output sid child PRead)]
  | _ => []
  end.

(** The world in which the handler of [r] has been created. *)
Definition arrived (r : request) (w : World) : World := step w (Arrive r).

(** [cs] appended to the calls of an object. *)
Definition called (cs : list pcall) (o : spawn) : spawn :=
  {| command := command o; args := args o; echo := echo o;
     dimensions := dimensions o; env_TERM := env_TERM o;
     calls := calls o ++ cs; closed := closed o |}.


Definition frame_of (th : thread) : frame :=
  match th with
  | Running f | Returned f | Raised f _ => f
  end.

(** [request.sid], respectively the argument [sid] of the reader. *)
Definition sid_of (f : frame) : string :=
  match f with
  | read_gamdl_output sid _ _ | handle_connect sid | handle_disconnect sid _
  | handle_start_download sid _ _ | handle_send_input sid _ _ => sid
  end.

Definition is_reader (f : frame) : bool :=
  match f with
  | read_gamdl_output _ _ _ => true
  | _ => false
  end.

(** The three ways out of the [while True] of l.34, with the message the
    branch emits before its [break]: EOF (l.48-52), any other exception of
    the read (l.53-58), and a timeout followed by a negative liveness check
    (l.41-46). *)
Inductive loop_exit (sid : string) : pump_pc → env → message → Prop :=
  | eof_done e x :
      raises e = Some x → e_class x = EOF →
      loop_exit sid PRead e (info_message "gamdl process finished (EOF).")
  | error_done e x :
      raises e = Some x → e_class x ≠ TIMEOUT → e_class x ≠ EOF →
      loop_exit sid PRead e
        (error_message
           ("Error reading gamdl output for SID " +:+ sid +:+ ": "
              +:+ e_str x))
  | dead_done e :
      alive e = false →
      loop_exit sid PCheckAlive e
        (info_message "gamdl process appears to have exited.").

Definition completion : message :=
  download_complete "Download process and cleanup finished.".

(** *** Messages and reads of one thread *)

Definition msgs_by (t : tid) (out : list emitted) : list emitted :=
  filter (λ m, em_by m = t) out.

Definition reads_by (t : tid) (rd : list (tid * string)) : list string :=
  (filter (λ p, p.1 = t) rd).*2.

Definition is_output (m : emitted) : bool :=
  match em_msg m with
  | gamdl_output _ => true
  | _ => false
  end.

Definition is_complete (m : emitted) : bool :=
  match em_msg m with
  | download_complete _ => true
  | _ => false
  end.

(** *** Who is responsible for a pexpect object *)

(** The process a thread has in hand: the handler between the spawn and the
    start of the reader, then the reader, for good. *)
Definition owner (th : thread) : option (string * handle) :=
  match frame_of th with
  | handle_start_download sid _ (SAssign h)
  | handle_start_download sid _ (SThread h)
  | read_gamdl_output sid h _ => Some (sid, h)
  | _ => None
  end.

Arguments owner !_ /.

(** The thread has not yet executed the removal of l.64-66 for the process
    it has in hand. *)
Definition before_removal (th : thread) : bool :=
  match th with
  | Running (handle_start_download _ _ (SThread _)) => true
  | Running (read_gamdl_output _ _ pc) =>
      match pc with
      | PEmit => false
      | _ => true
      end
  | Raised (read_gamdl_output _ _ PClose) _ => true
  | _ => false
  end.

Definition spawned_for (w : World) (sid : string) (h : handle) : Prop :=
  h < length (heap w)
  ∧ ∃ t th, threads w !! t = Some th ∧ owner th = Some (sid, h).

(** The reader of [h] went through its [finally] block and returned. *)
Definition cleanup_completed (w : World) (sid : string) (h : handle) : Prop :=
  ∃ t, threads w !! t = Some (Returned (read_gamdl_output sid h PEmit)).

(** The invariant of section 3 of the specification, as it is worded. *)
Definition registry_iff (w : World) : Prop :=
  ∀ sid, is_Some (child_processes w !! sid)
         ↔ ∃ h, spawned_for w sid h ∧ ¬ cleanup_completed w sid h.

(** *** Scenarios used by the examples below *)

Definition yes : env := Env true None "".
Definition no : env := Env false None "".
Definition data (s : string) : env := Env true None s.
Definition raising (a : bool) (c : exn_class) (s : string) : env :=
  Env a (Some (Exn c s)) "".

Definition album : string := "https://example/album/1".

(** Session s1 starts a download: the handler runs l.100-145 and returns;
    thread 0 is the handler, thread 1 the reader of process 0. *)
Definition start_s1 : list event :=
  [Arrive (start_download "s1" (Some album));
   Run 0 yes; Run 0 yes; Run 0 yes; Run 0 yes; Run 0 yes; Run 0 yes].

Definition downloading : World := run start_s1 init.

(** The reader of s1 gets EOF from the pty while the process still counts
    as alive (l.48, l.61), and [close()] returns (l.63). *)
Definition eof_then_closed : list event :=
  start_s1 ++
  [Run 1 (raising true EOF "End Of File (EOF).");  (* l.38 raises EOF *)
   Run 1 yes;                                      (* l.61: alive *)
   Run 1 yes;                                      (* l.63: close() returns *)
   Run 1 yes;                                      (* l.64: sid is there *)
   Run 1 yes;                                      (* l.66 *)
   Run 1 yes].                                     (* l.68 *)

(** The same, but [close()] raises: pexpect does so when the child does not
    go away ("Could not terminate the child."). *)
Definition eof_then_close_raises : list event :=
  start_s1 ++
  [Run 1 (raising true EOF "End Of File (EOF).");  (* l.38 raises EOF *)
   Run 1 yes;                                      (* l.61: alive *)
   Run 1 (raising true ExceptionPexpect "Could not terminate the child.");
                                                   (* l.63: close() raises *)
   Run 1 yes; Run 1 yes; Run 1 yes].               (* the thread is gone *)

(** The process of s1 exits and the client of s1 disconnects at the same
    time: the reader has evaluated the test of l.64 when the disconnect
    handler pops the entry (l.83), and then executes l.66. *)
Definition exit_races_disconnect : list event :=
  start_s1 ++
  [Run 1 (raising false EOF "End Of File (EOF).");  (* reader, l.38: EOF *)
   Run 1 no;                                        (* reader, l.61: dead *)
   Run 1 yes;                                       (* reader, l.64: True *)
   Arrive (disconnect "s1");                        (* thread 2 *)
   Run 2 yes;                                       (* handler, l.83: pop *)
   Run 1 yes;                                       (* reader, l.66 *)
   Run 2 no;                                        (* handler, l.84: dead *)
   Run 2 yes].                                      (* handler, l.95 *)

(** The client of s1 disconnects while the download runs; the handler has
    executed l.83. *)
Definition disconnect_popped : list event :=
  start_s1 ++ [Arrive (disconnect "s1"); Run 2 yes].

Definition termination_call (c : pcall) : bool :=
  match c with
  | sendeof | terminate _ => true
  | close | send _ => false
  end.

(** "calls terminate() and then close()": every [close()] made on an object
    comes after a call of the termination sequence on it. *)
Definition terminate_then_close (o : spawn) : Prop :=
  ∀ pre post, calls o = pre ++ close :: post →
              ∃ c, c ∈ pre ∧ termination_call c = true.

(** *** The invariant behind the registry *)

(** What holds of [child_processes] in every reachable world: the processes
    threads have in hand exist, no process is in the hand of two threads,
    and every entry refers to a process whose thread has not yet executed
    the removal of l.64-66. *)
Record registry_inv (w : World) : Prop := {
  inv_bound : ∀ t th sid h,
    threads w !! t = Some th → owner th = Some (sid, h) →
    h < length (heap w);
  inv_unique : ∀ t1 t2 th1 th2 sid1 sid2 h,
    threads w !! t1 = Some th1 → threads w !! t2 = Some th2 →
    owner th1 = Some (sid1, h) → owner th2 = Some (sid2, h) → t1 = t2;
  inv_holder : ∀ sid h,
    child_processes w !! sid = Some h →
    ∃ t th, threads w !! t = Some th ∧ owner th = Some (sid, h)
            ∧ before_removal th = true
}.

(** *** The history of one thread *)

Definition returned_reader (th : thread) : bool :=
  match th with
  | Returned (read_gamdl_output _ _ _) => true
  | _ => false
  end.

Definition forwarded (t : tid) (sid : string) (c : string) : emitted :=
  Emitted t sid (gamdl_output c).

(** What the messages [ms] emitted by thread [t] so far and the strings
    [rs] it has read so far have to do with each other and with the state
    [oth] of the thread. *)
Definition hist (t : tid) (oth : option thread) (ms : list emitted)
    (rs : list string) : Prop :=
  match oth with
  | None => ms = [] ∧ rs = []
  | Some th =>
      let sid := sid_of (frame_of th) in
      Forall (λ m, em_room m = sid) ms
      ∧ filter is_output ms = forwarded t sid <$> filter truthy rs
      ∧ filter is_complete ms =
          (if returned_reader th then [Emitted t sid completion] else [])
      ∧ (is_reader (frame_of th) = false → rs = [])
  end.

Definition history_inv (w : World) : Prop :=
  ∀ t, hist t (threads w !! t) (msgs_by t (outbox w))
         (reads_by t (pty_reads w)).

(** The strings in one piece. *)
Definition joined (l : list string) : string := foldr String.append "" l.

Definition output_data (m : emitted) : option string :=
  match em_msg m with
  | gamdl_output d => Some d
  | _ => None
  end.

(** The reader of s1 reads three times: text, nothing, text. *)
Definition three_reads : list event :=
  start_s1 ++
  [Run 1 (data "Downloading track 1..."); Run 1 (data "");
   Run 1 (data "done")].


(** The statements an exception can leave its function from: [close()] at
    l.63 and the two [del child_processes[sid]] that follow a separate
    membership test (l.66; l.152 and l.158). *)
Definition may_raise (f : frame) : bool :=
  match f with
  | read_gamdl_output _ _ PClose | read_gamdl_output _ _ PDel
  | handle_start_download _ _ SExDel => true
  | _ => false
  end.

(** *** Vocabulary of the further properties *)

(** One turn of the loop of l.34 in which nothing arrives: the read raises
    [pexpect.TIMEOUT] (l.41) and [isalive()] is true (l.43). *)
Definition timeout_round (p : env * env) : Prop :=
  (∃ x, raises p.1 = Some x ∧ e_class x = TIMEOUT) ∧ alive p.2 = true.

(** The inputs of a sequence of turns, statement by statement. *)
Definition rounds (l : list (env * env)) : list env :=
  l ≫= λ p, [p.1; p.2].

(** How an object was spawned: what [pexpect.spawn] was given. *)
Definition config (o : spawn)
    : string * list string * bool * (nat * nat) * string :=
  (command o, args o, echo o, dimensions o, env_TERM o).

Definition is_close (c : pcall) : bool :=
  match c with
  | close => true
  | _ => false
  end.

(** Number of [close()] calls made on an object. *)
Definition closes (o : spawn) : nat := length (filter is_close (calls o)).

(** A reader that has executed l.63, or has passed it. *)
Definition past_close (th : thread) : bool :=
  match th with
  | Running (read_gamdl_output _ _ pc) =>
      match pc with
      | PCheckReg | PDel | PEmit => true
      | _ => false
      end
  | Returned (read_gamdl_output _ _ _) => true
  | Raised (read_gamdl_output _ _ _) _ => true
  | _ => false
  end.

(** The process a handler has taken out of [child_processes] and is about
    to call a method on: the local [child_process] of [handle_disconnect]
    (l.83-92) and of [handle_send_input] (l.170-176). *)
Definition in_hand (th : thread) : option handle :=
  match th with
  | Running (handle_disconnect _ (DGuard (Some h)))
  | Running (handle_disconnect _ (DEof h))
  | Running (handle_disconnect _ (DTerm h))
  | Running (handle_disconnect _ (DKill h))
  | Running (handle_send_input _ _ (ISend h)) => Some h
  | _ => None
  end.


(** Behind X13: a handler in front of l.113 has a URL, and every object
    has the configuration of some [new_child]. *)
Definition spawn_inv (w : World) : Prop :=
  (∀ t sid url,
     threads w !! t = Some (Running (handle_start_download sid url SSpawn)) →
     truthy_opt url = true)
  ∧ ∀ h o, heap w !! h = Some o →
           ∃ u, truthy u = true ∧ config o = config (new_child u).

(** Behind X14: what the [close()] calls on an object say about the
    threads. *)
Definition close_inv (w : World) : Prop :=
  ∀ h o, heap w !! h = Some o →
    closes o ≤ 1
    ∧ (closed o = true → closes o = 1)
    ∧ (closes o = 1 →
       ∃ t th sid, threads w !! t = Some th ∧ owner th = Some (sid, h)
                   ∧ past_close th = true).

(** The messages the reader [t] of session [sid] emits for reads that
    return [reads e], [e] in [es]: one per non-empty string. *)
Definition forwarded_reads (t : tid) (sid : string) (es : list env)
    : list emitted :=
  forwarded t sid <$> filter truthy (reads <$> es).

(** Behind X15: the process a handler has in hand was spawned for the
    session of the handler. *)
Definition hand_inv (w : World) : Prop :=
  ∀ t th h, threads w !! t = Some th → in_hand th = Some h →
            spawned_for w (sid_of (frame_of th)) h.

(** Sessions s1 and s2 both download: threads 2 and 3 are the handler and
    the reader of s2, whose process is object 1. *)
Definition two_sessions : World :=
  run [Arrive (start_download "s2" (Some album));
       Run 2 yes; Run 2 yes; Run 2 yes; Run 2 yes; Run 2 yes; Run 2 yes]
    downloading.

(** * Properties *)

(** ** Executing one thread *)

Lemma run_cons ev evs w : run (ev :: evs) w = run evs (step w ev).
Proof. reflexivity. Qed.

Lemma run_app evs1 evs2 w : run (evs1 ++ evs2) w = run evs2 (run evs1 w).
Proof. apply foldl_app. Qed.

Lemma step_Run w t e f :
  threads w !! t = Some (Running f) →
  step w (Run t e) =
    put_thread t (frame_step t e f w).1 (frame_step t e f w).2.
Proof.
  intros H. unfold step. rewrite H. by destruct (frame_step t e f w).
Qed.

Lemma step_not_running w t e :
  (∀ f, threads w !! t ≠ Some (Running f)) → step w (Run t e) = w.
Proof.
  intros H. unfold step. destruct (threads w !! t) as [[f| |]|] eqn:E; try done.
  by destruct (H f).
Qed.

(** A step of a frame never reads the thread table and only ever appends a
    new reader to it. *)
Lemma frame_step_threads t e f w :
  threads (frame_step t e f w).2 = threads w ++ forks f.
Proof.
  destruct f as [sid h pc|sid|sid pc|sid url pc|sid inp pc]; simpl.
  - destruct pc; simpl; rewrite ?app_nil_r; try done;
      repeat case_match; simpl; by rewrite ?app_nil_r.
  - by rewrite app_nil_r.
  - destruct pc as [|[h|]|h|h|h|]; simpl; unfold escalate;
      repeat case_match; simplify_eq; simpl; by rewrite ?app_nil_r.
  - destruct pc; simpl; repeat case_match; simpl; by rewrite ?app_nil_r.
  - destruct pc; simpl; repeat case_match; simpl; by rewrite ?app_nil_r.
Qed.

Lemma frame_step_put t e f t' th w :
  t' < length (threads w) →
  frame_step t e f (put_thread t' th w) =
    ((frame_step t e f w).1, put_thread t' th (frame_step t e f w).2).
Proof.
  intros Hlt.
  destruct f as [sid h pc|sid|sid pc|sid url pc|sid inp pc]; simpl.
  - destruct pc; simpl; try done; repeat case_match; simplify_eq; done.
  - done.
  - destruct pc as [|[h|]|h|h|h|]; simpl; unfold escalate; simpl;
      repeat case_match; simplify_eq; done.
  - destruct pc; simpl; try done; repeat case_match; simplify_eq; try done.
    unfold put_thread; simpl. by rewrite insert_app_l.
  - destruct pc; simpl; try done; repeat case_match; simplify_eq; done.
Qed.

Lemma iter_put t es th t' x w :
  t' < length (threads w) →
  iter t es th (put_thread t' x w) =
    ((iter t es th w).1, put_thread t' x (iter t es th w).2).
Proof.
  revert th w. induction es as [|e es IH]; intros th w Hlt; [done|].
  destruct th as [f| |]; try done. simpl.
  rewrite frame_step_put by done.
  destruct (frame_step t e f w) as [th1 w1] eqn:E. simpl.
  apply IH.
  pose proof (frame_step_threads t e f w) as Hth. rewrite E in Hth.
  simpl in Hth. rewrite Hth, length_app. lia.
Qed.

Lemma put_thread_id t th w : threads w !! t = Some th → put_thread t th w = w.
Proof.
  intros H. destruct w. unfold put_thread, set_threads. simpl in *.
  by rewrite list_insert_id.
Qed.

Lemma put_thread_put t a b w :
  put_thread t a (put_thread t b w) = put_thread t a w.
Proof.
  unfold put_thread, set_threads. simpl. by rewrite list_insert_insert_eq.
Qed.

Lemma run_thread_idle t es w :
  (∀ f, threads w !! t ≠ Some (Running f)) → run_thread t es w = w.
Proof.
  intros H. unfold run_thread. induction es as [|e es IH]; [done|].
  rewrite fmap_cons, run_cons, step_not_running; done.
Qed.

(** Executing thread [t] for [es] is [iter] on its frame, written back to
    the thread table. *)
Lemma run_thread_iter t es th w :
  threads w !! t = Some th →
  run_thread t es w = put_thread t (iter t es th w).1 (iter t es th w).2.
Proof.
  revert th w. induction es as [|e es IH]; intros th w H.
  - simpl. by rewrite put_thread_id.
  - destruct th as [f| |].
    + unfold run_thread.
      rewrite fmap_cons, run_cons, (step_Run _ _ _ f) by done.
      simpl. destruct (frame_step t e f w) as [th1 w1] eqn:E. simpl.
      pose proof (frame_step_threads t e f w) as Hth. rewrite E in Hth.
      simpl in Hth.
      assert (t < length (threads w1)) as Hlt.
      { rewrite Hth, length_app. apply lookup_lt_Some in H. lia. }
      fold (run_thread t es (put_thread t th1 w1)).
      rewrite (IH th1).
      * rewrite iter_put by done. simpl. by rewrite put_thread_put.
      * unfold put_thread. simpl. by rewrite list_lookup_insert_eq.
    + rewrite run_thread_idle by (intros g; rewrite H; done).
      simpl. by rewrite put_thread_id.
    + rewrite run_thread_idle by (intros g; rewrite H; done).
      simpl. by rewrite put_thread_id.
Qed.

Lemma serve_iter r es w :
  serve r es w =
    put_thread (length (threads w))
      (iter (length (threads w)) es (Running (entry r)) (arrived r w)).1
      (iter (length (threads w)) es (Running (entry r)) (arrived r w)).2.
Proof.
  unfold serve. apply run_thread_iter. simpl. by apply list_lookup_middle.
Qed.

Lemma iter_Returned t es f w : iter t es (Returned f) w = (Returned f, w).
Proof. by destruct es. Qed.

Lemma iter_Raised t es f x w : iter t es (Raised f x) w = (Raised f x, w).
Proof. by destruct es. Qed.

Lemma insert_self {A} (l k : list A) (x y : A) :
  <[length l := y]> (l ++ x :: k) = l ++ y :: k.
Proof. induction l as [|a l IH]; simpl; [done | by rewrite IH]. Qed.

Lemma lookup_self {A} (l k : list A) (x : A) :
  (l ++ x :: k) !! length l = Some x.
Proof. by apply list_lookup_middle. Qed.




Lemma alter_record (l : list spawn) h c :
  alter (record_call c) h l = alter (called [c]) h l.
Proof. apply list_alter_ext; [|done]. by intros [] _. Qed.


(** ** Start requests *)






(** ** Disconnect *)








(** ** The reader *)

(** C4 (amended).  Whichever way the loop of the reader ends (EOF, another
    exception of the read, or a timeout with the process found dead), the
    reader goes through the one [finally] block of l.59-69: if [isalive()]
    is true at l.61 it calls [close()] on the process, and nothing else;
    then it deletes the entry of the session if there is one; then it emits
    [download_complete] to the session, and returns.  This is for a
    [close()] that returns, the reader running by itself. *)
Theorem finalization (w : World) (t : tid) (sid : string) (h : handle)
    (pc : pump_pc) (m : message) (e0 e1 e2 e3 e4 e5 : env) (es : list env) :
  threads w !! t = Some (Running (read_gamdl_output sid h pc)) →
  loop_exit sid pc e0 m →
  (alive e1 = true → raises e2 = None) →
  let w' := run_thread t (e0 :: e1 :: e2 :: e3 :: e4 :: e5 :: es) w in
  threads w' !! t = Some (Returned (read_gamdl_output sid h PEmit))
  ∧ heap w' = (if alive e1
               then alter (mark_closed ∘ called [close]) h (heap w)
               else heap w)
  ∧ child_processes w' = delete sid (child_processes w)
  ∧ outbox w' = outbox w ++ [Emitted t sid m; Emitted t sid completion].
Proof.
  intros Ht Hexit Hclose. cbv zeta.
  rewrite (run_thread_iter _ _ _ _ Ht).
  apply lookup_lt_Some in Ht as Hlt.
  assert (∀ w0, iter t (e1 :: e2 :: e3 :: e4 :: e5 :: es)
                  (Running (read_gamdl_output sid h PFinally)) w0
                = (Returned (read_gamdl_output sid h PEmit),
                   set_outbox (outbox w0 ++ [Emitted t sid completion])
                     (set_child_processes (delete sid (child_processes w0))
                        (set_heap
                           (if alive e1
                            then alter (mark_closed ∘ called [close]) h
                                   (heap w0)
                            else heap w0) w0)))) as Hfin.
  { intros w0. simpl. destruct (alive e1) eqn:A1; simpl.
    - rewrite Hclose by done. simpl.
      rewrite alter_record, list_alter_alter_eq.
      destruct (child_processes w0 !! sid) as [h'|] eqn:Hreg; simpl;
        rewrite ?Hreg; simpl; rewrite ?iter_Returned; try done.
      by rewrite delete_id.
    - destruct (child_processes w0 !! sid) as [h'|] eqn:Hreg; simpl;
        rewrite ?Hreg; simpl; rewrite ?iter_Returned; try done.
      by rewrite delete_id. }
  assert (iter t (e0 :: e1 :: e2 :: e3 :: e4 :: e5 :: es)
            (Running (read_gamdl_output sid h pc)) w
          = iter t (e1 :: e2 :: e3 :: e4 :: e5 :: es)
              (Running (read_gamdl_output sid h PFinally))
              (emit t m sid w)) as ->.
  { destruct Hexit as [e x Hx Hc|e x Hx Hc1 Hc2|e Hd].
    - cbn [iter frame_step pump_step]. by rewrite Hx, Hc.
    - cbn [iter frame_step pump_step]. rewrite Hx.
      by destruct (e_class x).
    - cbn [iter frame_step pump_step]. by rewrite Hd. }
  rewrite Hfin. simpl. rewrite <- app_assoc. simpl.
  split; [by apply list_lookup_insert_eq|done].
Qed.

Lemma finalization_witness :
  let w' := run_thread 1
              [raising true EOF "End Of File (EOF)."; yes; yes; yes; yes; yes]
              downloading in
  threads downloading !! 1 = Some (Running (read_gamdl_output "s1" 0 PRead))
  ∧ heap w' = [mark_closed (called [close] (new_child album))]
  ∧ child_processes w' = delete "s1" (child_processes downloading)
  ∧ outbox w' =
      outbox downloading
        ++ [Emitted 1 "s1" (info_message "gamdl process finished (EOF).");
            Emitted 1 "s1" completion].
Proof.
  intros w'.
  pose proof (finalization downloading 1 "s1" 0 PRead _
                (raising true EOF "End Of File (EOF).") yes yes yes yes yes []
                eq_refl
                (eof_done "s1" (raising true EOF "End Of File (EOF).") _
                   eq_refl eq_refl)
                (λ _, eq_refl)) as (_ & H2 & H3 & H4).
  split; [reflexivity|]. split; [exact H2|]. split; [exact H3 | exact H4].
Defined.

(** C4 as worded fails: the reader of s1 reads EOF while the process is
    alive and finalizes; the only call ever made on the process is
    [close()], no [terminate()] comes before it. *)
Lemma close_without_terminate :
  ¬ ∀ w, reachable w → ∀ h o, heap w !! h = Some o → terminate_then_close o.
Proof.
  intros H.
  destruct (H (run eof_then_closed init) (ex_intro _ _ eq_refl) 0
              (mark_closed (called [close] (new_child album)))
              eq_refl [] [] eq_refl) as (c & Hc & _).
  by apply elem_of_nil in Hc.
Qed.

(** The step at l.63 when [close()] raises: the exception leaves the
    function, and the thread never touches the dictionary or emits again. *)
Lemma close_exception_skips_cleanup (w : World) (t : tid) (sid : string)
    (h : handle) (x : exn) (e : env) (es : list env) :
  threads w !! t = Some (Running (read_gamdl_output sid h PClose)) →
  raises e = Some x →
  let w' := run_thread t (e :: es) w in
  threads w' !! t = Some (Raised (read_gamdl_output sid h PClose) x)
  ∧ child_processes w' = child_processes w
  ∧ outbox w' = outbox w.
Proof.
  intros Ht Hx. cbv zeta. rewrite (run_thread_iter _ _ _ _ Ht). simpl.
  rewrite Hx, iter_Raised. simpl. split; [|done].
  apply list_lookup_insert_eq. by apply lookup_lt_Some in Ht.
Qed.

(** C2, at the failing input.  EOF is read while the process is alive, and
    [close()] raises at l.63: the reader thread dies there.  The entry of
    s1 stays in [child_processes], no [download_complete] is ever emitted,
    and no thread is left that could do either. *)
Theorem close_exception_loses_cleanup :
  let w := run eof_then_close_raises init in
  threads w =
    [Returned (handle_start_download "s1" (Some album) SEmit);
     Raised (read_gamdl_output "s1" 0 PClose)
       (Exn ExceptionPexpect "Could not terminate the child.")]
  ∧ child_processes w !! "s1" = Some 0
  ∧ filter is_complete (outbox w) = []
  ∧ ∀ t e, step w (Run t e) = w.
Proof.
  cbv zeta. split; [vm_compute; reflexivity|].
  split; [vm_compute; reflexivity|]. split; [vm_compute; reflexivity|].
  intros t e. apply step_not_running. intros f.
  replace (threads (run eof_then_close_raises init)) with
    [Returned (handle_start_download "s1" (Some album) SEmit);
     Raised (read_gamdl_output "s1" 0 PClose)
       (Exn ExceptionPexpect "Could not terminate the child.")]
    by (vm_compute; reflexivity).
  by destruct t as [|[|t]].
Qed.

(** C1, at the failing input.  The process of s1 exits (EOF) and the client
    disconnects.  The reader has passed the test of l.64 when the handler
    pops the entry at l.83, so [del child_processes[sid]] at l.66 raises
    [KeyError] and the reader dies before l.68.  Both threads are over, and
    no [download_complete] was emitted for this process. *)
Theorem racing_disconnect_loses_completion :
  let w := run exit_races_disconnect init in
  threads w =
    [Returned (handle_start_download "s1" (Some album) SEmit);
     Raised (read_gamdl_output "s1" 0 PDel) (Exn KeyError "'s1'");
     Returned (handle_disconnect "s1" DLeave)]
  ∧ heap w = [new_child album]
  ∧ filter is_complete (outbox w) = []
  ∧ ∀ t e, step w (Run t e) = w.
Proof.
  cbv zeta. split; [vm_compute; reflexivity|].
  split; [vm_compute; reflexivity|]. split; [vm_compute; reflexivity|].
  intros t e. apply step_not_running. intros f.
  replace (threads (run exit_races_disconnect init)) with
    [Returned (handle_start_download "s1" (Some album) SEmit);
     Raised (read_gamdl_output "s1" 0 PDel) (Exn KeyError "'s1'");
     Returned (handle_disconnect "s1" DLeave)]
    by (vm_compute; reflexivity).
  by destruct t as [|[|[|t]]].
Qed.

(** ** Reachable worlds *)

Lemma reachable_init : reachable init.
Proof. by exists []. Qed.

Lemma reachable_step w ev : reachable w → reachable (step w ev).
Proof.
  intros [evs ->]. exists (evs ++ [ev]). by rewrite run_app.
Qed.

Lemma reachable_ind (P : World → Prop) :
  P init →
  (∀ w ev, reachable w → P w → P (step w ev)) →
  ∀ w, reachable w → P w.
Proof.
  intros Hinit Hstep w [evs ->].
  induction evs as [|ev evs IH] using rev_ind; [done|].
  rewrite run_app. simpl. apply Hstep; [by eexists | done].
Qed.

Lemma lookup_put (ths : list thread) t th' t1 :
  t < length ths →
  <[t := th']> ths !! t1 = if decide (t1 = t) then Some th' else ths !! t1.
Proof.
  intros Hlt. case_decide as Hd.
  - subst. by apply list_lookup_insert_eq.
  - by apply list_lookup_insert_ne.
Qed.

(** ** The registry *)

(** A step that keeps the process the thread has in hand, creates no
    thread, and adds to the dictionary at most the process in hand. *)
Lemma registry_inv_keep w t th th' w' :
  registry_inv w →
  threads w !! t = Some th →
  owner th' = owner th →
  threads w' = threads w →
  length (heap w) ≤ length (heap w') →
  (∀ sid h, child_processes w' !! sid = Some h →
            child_processes w !! sid = Some h
            ∨ (owner th' = Some (sid, h) ∧ before_removal th' = true)) →
  (∀ sid h, owner th = Some (sid, h) →
            child_processes w' !! sid = Some h →
            before_removal th = true → before_removal th' = true) →
  registry_inv (put_thread t th' w').
Proof.
  intros [Hb Hu Hh] Ht Hown Hths Hheap Hreg Hbr.
  apply lookup_lt_Some in Ht as Hlt.
  split; unfold put_thread; simpl; rewrite Hths.
  - intros t1 th1 sid h. rewrite lookup_put by done.
    case_decide; intros ? Ho; simplify_eq.
    + rewrite Hown in Ho. eapply Nat.lt_le_trans; [by eapply Hb|done].
    + eapply Nat.lt_le_trans; [by eapply Hb|done].
  - intros t1 t2 th1 th2 sid1 sid2 h. rewrite !lookup_put by done.
    repeat case_decide; intros ?? Ho1 Ho2; simplify_eq;
      rewrite ?Hown in *; eauto.
  - intros sid h Hl. destruct (Hreg _ _ Hl) as [Hold|[Ho Hbefore]].
    + destruct (Hh sid h Hold) as (t1 & th1 & ? & ? & ?).
      destruct (decide (t1 = t)) as [->|Hne].
      * exists t, th'. simplify_eq. rewrite lookup_put, decide_True by done.
        rewrite Hown. eauto.
      * exists t1, th1. by rewrite lookup_put, decide_False by done.
    + exists t, th'. by rewrite lookup_put, decide_True by done.
Qed.

(** l.132 returned: the handler has a new object in hand. *)
Lemma registry_inv_spawn w t sid url o :
  registry_inv w →
  threads w !! t = Some (Running (handle_start_download sid url SSpawn)) →
  registry_inv
    (put_thread t
       (Running (handle_start_download sid url (SAssign (length (heap w)))))
       (set_heap (heap w ++ [o]) w)).
Proof.
  intros [Hb Hu Hh] Ht. apply lookup_lt_Some in Ht as Hlt.
  split; unfold put_thread; simpl.
  - intros t1 th1 sid1 h. rewrite lookup_put, length_app by done. simpl.
    case_decide; intros ? Ho; simplify_eq/=; [lia|].
    eapply Nat.lt_le_trans; [by eapply Hb|lia].
  - intros t1 t2 th1 th2 sid1 sid2 h. rewrite !lookup_put by done.
    repeat case_decide; intros Hl1 Hl2 Ho1 Ho2; simplify_eq/=; eauto.
    + specialize (Hb _ _ _ _ Hl2 Ho2). lia.
    + specialize (Hb _ _ _ _ Hl1 Ho1). lia.
  - intros sid1 h Hl. destruct (Hh _ _ Hl) as (t1 & th1 & ? & ? & ?).
    exists t1, th1. rewrite lookup_put by done.
    case_decide; [by simplify_eq|done].
Qed.

(** l.141-143: the handler hands the object to the new reader. *)
Lemma registry_inv_fork w t sid url h :
  registry_inv w →
  threads w !! t = Some (Running (handle_start_download sid url (SThread h))) →
  registry_inv
    (put_thread t (Running (handle_start_download sid url SEmit))
       (set_threads
          (threads w ++ [Running (read_gamdl_output sid h PRead)]) w)).
Proof.
  intros [Hb Hu Hh] Ht. apply lookup_lt_Some in Ht as Hlt.
  assert (∀ t1 th1,
    <[t:=Running (handle_start_download sid url SEmit)]>
      (threads w ++ [Running (read_gamdl_output sid h PRead)]) !! t1
    = Some th1 →
    (t1 = t ∧ th1 = Running (handle_start_download sid url SEmit))
    ∨ (t1 ≠ t ∧ threads w !! t1 = Some th1)
    ∨ (t1 = length (threads w)
       ∧ th1 = Running (read_gamdl_output sid h PRead))) as Hcases.
  { intros t1 th1. rewrite lookup_put by (rewrite length_app; lia).
    case_decide; [naive_solver|]. intros Hl.
    apply lookup_app_Some in Hl as [Hl|[Hge Hl]]; [naive_solver|].
    apply list_lookup_singleton_Some in Hl as [? <-].
    right; right. split; [lia|done]. }
  split; unfold put_thread; simpl.
  - intros t1 th1 sid1 h1 Hl Ho.
    destruct (Hcases _ _ Hl) as [[-> ->]|[[? ?]|[-> ->]]];
      [done|by eapply Hb|].
    simpl in Ho. simplify_eq. by eapply (Hb t).
  - intros t1 t2 th1 th2 sid1 sid2 h1 Hl1 Hl2 Ho1 Ho2.
    destruct (Hcases _ _ Hl1) as [[-> ->]|[[? Hl1']|[-> ->]]];
      destruct (Hcases _ _ Hl2) as [[-> ->]|[[? Hl2']|[-> ->]]];
      try done; eauto.
    + simpl in Ho2. simplify_eq.
      destruct H. by eapply (Hu t1 t _ _ sid1 sid2 h1).
    + simpl in Ho1. simplify_eq.
      destruct H. by eapply (Hu t2 t _ _ sid2 sid1 h1).
  - intros sid1 h1 Hl. destruct (Hh _ _ Hl) as (t1 & th1 & Hl1 & Ho & Hbr).
    destruct (decide (t1 = t)) as [->|Hne].
    + simplify_eq. simpl in Ho. simplify_eq.
      exists (length (threads w)), (Running (read_gamdl_output sid1 h1 PRead)).
      split; [|done].
      rewrite lookup_put, decide_False by (rewrite ?length_app; lia).
      by apply list_lookup_middle.
    + exists t1, th1. split; [|done].
      rewrite lookup_put, decide_False by (rewrite ?length_app; lia).
      by apply lookup_app_l_Some.
Qed.

Lemma registry_inv_arrive w r : registry_inv w → registry_inv (step w (Arrive r)).
Proof.
  intros [Hb Hu Hh]. split; simpl.
  - intros t th sid h Hl Ho. apply lookup_app_Some in Hl as [Hl|[_ Hl]].
    + by eapply Hb.
    + apply list_lookup_singleton_Some in Hl as [_ <-]. by destruct r.
  - intros t1 t2 th1 th2 sid1 sid2 h Hl1 Hl2 Ho1 Ho2.
    apply lookup_app_Some in Hl1 as [Hl1|[_ Hl1]];
      apply lookup_app_Some in Hl2 as [Hl2|[_ Hl2]]; eauto.
    + apply list_lookup_singleton_Some in Hl2 as [_ <-]. by destruct r.
    + apply list_lookup_singleton_Some in Hl1 as [_ <-]. by destruct r.
    + apply list_lookup_singleton_Some in Hl1 as [_ <-]. by destruct r.
  - intros sid h Hl. destruct (Hh _ _ Hl) as (t & th & ? & ? & ?).
    exists t, th. split; [|done]. by apply lookup_app_l_Some.
Qed.

Ltac keep_side :=
  simpl; unfold escalate;
  repeat (case_match; simplify_eq/=); rewrite ?length_alter; try done.

Ltac reg_solve :=
  intros; simplify_eq/=;
  repeat match goal with
    | H : delete _ _ !! _ = Some _ |- _ =>
        apply lookup_delete_Some in H as [? ?]
    | H : <[_:=_]> _ !! _ = Some _ |- _ =>
        apply lookup_insert_Some in H as [[? ?]|[? ?]]
    | H : bool_decide _ = false |- _ => apply bool_decide_eq_false in H
    | H : bool_decide _ = true |- _ => apply bool_decide_eq_true in H
    end;
  simplify_eq/=; try done; try (by left); try (by right);
  try (exfalso; eauto).

Lemma registry_inv_run w t e f :
  registry_inv w →
  threads w !! t = Some (Running f) →
  registry_inv (put_thread t (frame_step t e f w).1 (frame_step t e f w).2).
Proof.
  intros Hinv Ht.
  destruct f as [sid h pc|sid|sid pc|sid url pc|sid inp pc].
  - eapply registry_inv_keep; [done|done|..]; destruct pc; keep_side;
      reg_solve.
  - eapply registry_inv_keep; [done|done|..]; keep_side; reg_solve.
  - eapply registry_inv_keep; [done|done|..];
      destruct pc as [|[?|]|?|?|?|]; keep_side; reg_solve.
  - destruct pc.
    4: { eapply registry_inv_keep; [done|done|..]; keep_side; reg_solve. }
    4: { by apply registry_inv_fork. }
    3: { simpl. destruct (raises e); simpl;
           [|by apply registry_inv_spawn].
         eapply registry_inv_keep; [done|done|..]; keep_side; reg_solve. }
    all: eapply registry_inv_keep; [done|done|..]; keep_side; reg_solve.
  - eapply registry_inv_keep; [done|done|..]; destruct pc; keep_side;
      reg_solve.
Qed.

Lemma registry_inv_step w ev : registry_inv w → registry_inv (step w ev).
Proof.
  intros Hinv. destruct ev as [r|t e]; [by apply registry_inv_arrive|].
  destruct (threads w !! t) as [[f| |]|] eqn:Ht.
  - rewrite (step_Run _ _ _ f) by done. by apply registry_inv_run.
  - by rewrite step_not_running by (intros f'; congruence).
  - by rewrite step_not_running by (intros f'; congruence).
  - by rewrite step_not_running by (intros f'; congruence).
Qed.

Lemma registry_inv_reachable w : reachable w → registry_inv w.
Proof.
  revert w. apply reachable_ind.
  - split; simpl; intros *; by rewrite ?lookup_nil, ?lookup_empty.
  - intros w ev _. apply registry_inv_step.
Qed.


(** C3 (amended).  In every reachable world an entry of [child_processes]
    refers to a process that was spawned for that session and whose
    reader has not completed its cleanup.  (Only this direction holds.) *)
Theorem registry_entry_sound (w : World) (sid : string) (h : handle) :
  reachable w →
  child_processes w !! sid = Some h →
  spawned_for w sid h ∧ ¬ cleanup_completed w sid h.
Proof.
  intros Hr Hl. destruct (registry_inv_reachable w Hr) as [Hb Hu Hh].
  destruct (Hh _ _ Hl) as (t & th & Ht & Ho & Hbr). split.
  - split; [by eapply Hb | by exists t, th].
  - intros [t' Ht'].
    assert (t = t') as <- by (by eapply (Hu t t' _ _ sid sid h)).
    by simplify_eq.
Qed.

Lemma registry_entry_sound_witness :
  reachable downloading
  ∧ child_processes downloading !! "s1" = Some 0
  ∧ spawned_for downloading "s1" 0
  ∧ ¬ cleanup_completed downloading "s1" 0.
Proof.
  assert (reachable downloading) as Hr by (by exists start_s1).
  assert (child_processes downloading !! "s1" = Some 0) as Hl
    by (vm_compute; reflexivity).
  split; [exact Hr|]. split; [exact Hl|].
  exact (registry_entry_sound downloading "s1" 0 Hr Hl).
Defined.

(** C3 as worded fails: the client of s1 disconnects during the download.
    After l.83 the dictionary has no entry for s1, while the process
    spawned for s1 is there and its reader is still in its loop. *)
Lemma registry_iff_fails : ¬ ∀ w, reachable w → registry_iff w.
Proof.
  intros H.
  destruct (H (run disconnect_popped init) (ex_intro _ _ eq_refl) "s1")
    as [_ Hback].
  destruct Hback as [h Hh]; [|by vm_compute in Hh].
  exists 0. split.
  - split; [vm_compute; lia|].
    by exists 1, (Running (read_gamdl_output "s1" 0 PRead)).
  - intros [t Ht]. by destruct t as [|[|[|t]]].
Qed.

(** ** Histories *)

Lemma filter_truthy_singleton (c : string) :
  filter truthy [c] = if truthy c then [c] else [].
Proof. rewrite filter_cons, filter_nil. by destruct (truthy c). Qed.

(** What one statement adds to the outbox and to the reads. *)
Lemma frame_step_history t e f w :
  ∃ ms rs,
    outbox (frame_step t e f w).2 = outbox w ++ ms
    ∧ pty_reads (frame_step t e f w).2 = pty_reads w ++ ((t ,.) <$> rs)
    ∧ Forall (λ m, em_by m = t ∧ em_room m = sid_of f) ms
    ∧ sid_of (frame_of (frame_step t e f w).1) = sid_of f
    ∧ is_reader (frame_of (frame_step t e f w).1) = is_reader f
    ∧ filter is_output ms = forwarded t (sid_of f) <$> filter truthy rs
    ∧ filter is_complete ms =
        (if returned_reader (frame_step t e f w).1
         then [Emitted t (sid_of f) completion] else [])
    ∧ (is_reader f = false → rs = []).
Proof.
  destruct f as [sid h pc|sid|sid pc|sid url pc|sid inp pc];
    [destruct pc| |destruct pc as [|[?|]|?|?|?|]|destruct pc|destruct pc];
    simpl; unfold escalate; repeat (case_match; simplify_eq/=);
    try first
      [ exists [], []; simpl; rewrite ?app_nil_r;
        repeat split; try done; by repeat constructor
      | eexists [_], []; simpl; rewrite ?app_nil_r;
        repeat split; try done; by repeat constructor ].
  - exists [forwarded t sid (reads e)], [reads e].
    rewrite filter_truthy_singleton, H0.
    repeat split; try done. by repeat constructor.
  - exists [], [reads e]. rewrite filter_truthy_singleton, H0, app_nil_r.
    repeat split; try done.
Qed.

Lemma msgs_by_app t l k : msgs_by t (l ++ k) = msgs_by t l ++ msgs_by t k.
Proof. apply filter_app. Qed.

Lemma msgs_by_step t t' sid ms :
  Forall (λ m, em_by m = t' ∧ em_room m = sid) ms →
  msgs_by t ms = if decide (t = t') then ms else [].
Proof.
  unfold msgs_by. induction 1 as [|m ms [Hby _] _ IH]; [by case_decide|].
  rewrite filter_cons, IH.
  repeat case_decide; simplify_eq; done.
Qed.

Lemma reads_by_step t t' rd rs :
  reads_by t (rd ++ ((t' ,.) <$> rs))
  = reads_by t rd ++ if decide (t = t') then rs else [].
Proof.
  unfold reads_by. rewrite filter_app, fmap_app. f_equal.
  destruct (decide (t = t')) as [->|Hne].
  - induction rs as [|c rs IH]; [done|].
    rewrite fmap_cons, filter_cons, decide_True by done.
    rewrite fmap_cons. by f_equal.
  - induction rs as [|c rs IH]; [done|].
    by rewrite fmap_cons, filter_cons, decide_False.
Qed.

Lemma hist_fresh t th :
  returned_reader th = false → hist t (Some th) [] [].
Proof. intros H. unfold hist. by rewrite H. Qed.

Lemma history_inv_arrive w r : history_inv w → history_inv (step w (Arrive r)).
Proof.
  intros Hinv t. specialize (Hinv t). simpl.
  destruct (decide (t < length (threads w))) as [Hlt|Hge].
  - by rewrite lookup_app_l.
  - rewrite lookup_ge_None_2 in Hinv by lia. destruct Hinv as [-> ->].
    destruct (_ !! t) as [th|] eqn:Hl; [|done].
    apply lookup_app_Some in Hl as [Hl|[_ Hl]].
    + apply lookup_lt_Some in Hl. lia.
    + apply list_lookup_singleton_Some in Hl as [_ <-]. by apply hist_fresh.
Qed.

Lemma history_inv_run w t e f :
  history_inv w →
  threads w !! t = Some (Running f) →
  history_inv (put_thread t (frame_step t e f w).1 (frame_step t e f w).2).
Proof.
  intros Hinv Ht t1. specialize (Hinv t1).
  destruct (frame_step_history t e f w)
    as (ms & rs & Hout & Hrd & Hms & Hsid & Hrdr & Hfwd & Hcpl & Hnr).
  apply lookup_lt_Some in Ht as Hlt.
  unfold put_thread. simpl.
  rewrite Hout, Hrd, frame_step_threads, msgs_by_app, reads_by_step,
    (msgs_by_step _ _ _ _ Hms).
  rewrite lookup_put by (rewrite length_app; lia).
  destruct (decide (t1 = t)) as [->|Hne].
  - rewrite Ht in Hinv. destruct Hinv as (Hroom & Hfw & Hc & Hn).
    simpl in *. rewrite Hsid, Hrdr.
    split; [|split; [|split]].
    + apply Forall_app. split; [done|].
      eapply Forall_impl; [done|]. by intros m [_ ?].
    + by rewrite !filter_app, fmap_app, Hfw, Hfwd.
    + by rewrite filter_app, Hc, Hcpl.
    + intros Hf. by rewrite Hn, Hnr.
  - rewrite !app_nil_r.
    destruct (decide (t1 < length (threads w))) as [Hlt1|Hge].
    + by rewrite lookup_app_l.
    + rewrite lookup_ge_None_2 in Hinv by lia. destruct Hinv as [-> ->].
      destruct (_ !! t1) as [th|] eqn:Hl; [|done].
      apply lookup_app_Some in Hl as [Hl|[_ Hl]].
      * apply lookup_lt_Some in Hl. lia.
      * apply hist_fresh.
        destruct f as [| | |? ? []|]; simpl in Hl;
          try (by rewrite lookup_nil in Hl).
        by apply list_lookup_singleton_Some in Hl as [_ <-].
Qed.

Lemma history_inv_step w ev : history_inv w → history_inv (step w ev).
Proof.
  intros Hinv. destruct ev as [r|t e]; [by apply history_inv_arrive|].
  destruct (threads w !! t) as [[f| |]|] eqn:Ht.
  - rewrite (step_Run _ _ _ f) by done. by apply history_inv_run.
  - by rewrite step_not_running by (intros f'; congruence).
  - by rewrite step_not_running by (intros f'; congruence).
  - by rewrite step_not_running by (intros f'; congruence).
Qed.

Lemma history_inv_reachable w : reachable w → history_inv w.
Proof.
  revert w. apply reachable_ind; [by intros t|].
  intros w ev _. apply history_inv_step.
Qed.

Lemma joined_truthy (l : list string) : joined (filter truthy l) = joined l.
Proof.
  induction l as [|c l IH]; [done|]. rewrite filter_cons.
  destruct c as [|a c]; simpl; [done|]. by rewrite IH.
Qed.

(** C7.  In every reachable world, for every reader: the [gamdl_output]
    messages it has emitted are, in the order of the outbox, the non-empty
    strings [read_nonblocking] has returned to it, in the order they were
    read, each as it was read and each addressed to the session of the
    reader.  Put end to end, what was sent is what was read. *)
Theorem output_forwarded_in_order (w : World) (t : tid) (th : thread)
    (sid : string) (h : handle) (pc : pump_pc) :
  reachable w →
  threads w !! t = Some th →
  frame_of th = read_gamdl_output sid h pc →
  filter is_output (msgs_by t (outbox w))
  = forwarded t sid <$> filter truthy (reads_by t (pty_reads w))
  ∧ joined (omap output_data (msgs_by t (outbox w)))
    = joined (reads_by t (pty_reads w)).
Proof.
  intros Hr Ht Hf. pose proof (history_inv_reachable w Hr t) as H.
  rewrite Ht in H. destruct H as (_ & Hfw & _). rewrite Hf in Hfw.
  simpl in Hfw. split; [done|].
  rewrite <- (joined_truthy (reads_by t (pty_reads w))). f_equal.
  assert (∀ ms : list emitted,
            omap output_data ms = omap output_data (filter is_output ms))
    as ->.
  { induction ms as [|[b r [d| | |]] ms IH]; [done|..];
      rewrite filter_cons; simpl; [f_equal|..]; apply IH. }
  rewrite Hfw. generalize (filter truthy (reads_by t (pty_reads w))).
  induction l as [|c l IH]; [done|]. simpl. f_equal. apply IH.
Qed.


Lemma output_forwarded_in_order_witness :
  let w := run three_reads init in
  reachable w
  ∧ threads w !! 1 = Some (Running (read_gamdl_output "s1" 0 PRead))
  ∧ reads_by 1 (pty_reads w) = ["Downloading track 1..."; ""; "done"]
  ∧ filter is_output (msgs_by 1 (outbox w))
    = [forwarded 1 "s1" "Downloading track 1..."; forwarded 1 "s1" "done"].
Proof.
  intros w.
  assert (reachable w) as Hr by (by exists three_reads).
  assert (threads w !! 1 = Some (Running (read_gamdl_output "s1" 0 PRead)))
    as Ht by reflexivity.
  destruct (output_forwarded_in_order w 1 _ "s1" 0 PRead Hr Ht eq_refl)
    as [H _].
  split; [exact Hr|]. split; [exact Ht|]. split; [reflexivity|].
  rewrite H. reflexivity.
Defined.

(** ** Completion notifications *)


(** A thread that does not exist has emitted nothing. *)
Lemma nothing_by_none (w : World) (t : tid) :
  reachable w →
  threads w !! t = None →
  msgs_by t (outbox w) = [].
Proof.
  intros Hr Ht. pose proof (history_inv_reachable w Hr t) as H.
  rewrite Ht in H. by destruct H.
Qed.

(** ** Exceptions *)

Lemma frame_step_raised t e f w f' x :
  (frame_step t e f w).1 = Raised f' x → may_raise f' = true.
Proof.
  destruct f as [sid h pc|sid|sid pc|sid url pc|sid inp pc];
    [destruct pc| |destruct pc as [|[?|]|?|?|?|]|destruct pc|destruct pc];
    simpl; unfold escalate; repeat (case_match; simplify_eq/=);
    intros; by simplify_eq/=.
Qed.

(** In every interleaving, a thread that ended with an exception is a
    reader at l.63 or l.66, or a start handler at l.152/l.158:
    [handle_disconnect], [handle_send_input] and [handle_connect] always
    return. *)
Lemma raised_only_there (w : World) (t : tid) (f : frame) (x : exn) :
  reachable w → threads w !! t = Some (Raised f x) → may_raise f = true.
Proof.
  intros Hr. revert t f x. revert w Hr.
  apply (reachable_ind
           (λ w, ∀ t f x, threads w !! t = Some (Raised f x)
                          → may_raise f = true)).
  { by intros [|t] f x. }
  intros w [r|t0 e] _ IH t f x Hl.
  - simpl in Hl. apply lookup_app_Some in Hl as [Hl|[_ Hl]]; [by eapply IH|].
    by apply list_lookup_singleton_Some in Hl as [_ ?].
  - destruct (threads w !! t0) as [[f0| |]|] eqn:Ht0.
    + rewrite (step_Run _ _ _ f0) in Hl by done.
      unfold put_thread in Hl. simpl in Hl.
      rewrite frame_step_threads in Hl.
      apply lookup_lt_Some in Ht0 as Hlt.
      rewrite lookup_put in Hl by (rewrite length_app; lia).
      case_decide; simplify_eq; [by eapply frame_step_raised|].
      apply lookup_app_Some in Hl as [Hl|[_ Hl]]; [by eapply IH|].
      destruct f0 as [| | |? ? []|]; simpl in Hl;
        try (by rewrite lookup_nil in Hl).
      by apply list_lookup_singleton_Some in Hl as [_ ?].
    + rewrite step_not_running in Hl by (intros f'; congruence).
      by eapply IH.
    + rewrite step_not_running in Hl by (intros f'; congruence).
      by eapply IH.
    + rewrite step_not_running in Hl by (intros f'; congruence).
      by eapply IH.
Qed.

(** The step at l.66 when the entry has been removed by another thread
    since the test of l.64. *)
Lemma removal_race_raises (w : World) (t : tid) (sid : string) (h : handle)
    (e : env) (es : list env) :
  threads w !! t = Some (Running (read_gamdl_output sid h PDel)) →
  child_processes w !! sid = None →
  let w' := run_thread t (e :: es) w in
  threads w' !! t
    = Some (Raised (read_gamdl_output sid h PDel)
              (Exn KeyError ("'" +:+ sid +:+ "'")))
  ∧ outbox w' = outbox w.
Proof.
  intros Ht Hreg. cbv zeta. rewrite (run_thread_iter _ _ _ _ Ht). simpl.
  rewrite Hreg, iter_Raised. simpl. split; [|done].
  apply list_lookup_insert_eq. by apply lookup_lt_Some in Ht.
Qed.

(** An exception of [sendeof()] or [terminate()] ends the escalation of
    [handle_disconnect]: the later calls are not made. *)
Lemma escalation_stops_on_exception (w : World) (sid : string) (h : handle)
    (x : exn) (e1 e2 e3 e4 e5 e6 : env) (es : list env) :
  child_processes w !! sid = Some h →
  alive e2 = true → alive e3 = true → raises e3 = Some x →
  let w' := serve (disconnect sid) (e1 :: e2 :: e3 :: e4 :: e5 :: e6 :: es) w in
  heap w' = alter (called [sendeof]) h (heap w)
  ∧ threads w' !! length (threads w)
    = Some (Returned (handle_disconnect sid DLeave)).
Proof.
  intros Hreg A2 A3 Hx. cbv zeta. rewrite serve_iter. unfold arrived. simpl.
  rewrite Hreg. simpl. rewrite A2. simpl. unfold escalate.
  rewrite A3, Hx. simpl. rewrite alter_record.
  by rewrite insert_self, lookup_self.
Qed.

(** * Further properties *)

(** ** Start requests, continued *)

(** X1.  A start request that passes the duplicate check but has no URL
    ([data_dict.get('url')] is [None] or the empty string, l.107-108) is
    answered with the error "No Apple Music URL provided." and nothing
    else happens: no process is spawned, no reader is started, and
    [child_processes] is as before (a stale entry stays). *)
Theorem missing_url_rejected (w : World) (sid : string)
    (url : option string) (e1 e2 : env) (es : list env) :
  (child_processes w !! sid = None ∨ alive e1 = false) →
  truthy_opt url = false →
  let t := length (threads w) in
  let w' := serve (start_download sid url) (e1 :: e2 :: es) w in
  outbox w' = outbox w ++ [Emitted t sid no_url]
  ∧ child_processes w' = child_processes w
  ∧ heap w' = heap w
  ∧ threads w' = threads w ++ [Returned (handle_start_download sid url SUrl)].
Proof.
  intros Hnodup Hurl. cbv zeta. rewrite serve_iter. unfold arrived. simpl.
  assert (match child_processes w !! sid with
          | Some _ =>
              if alive e1
              then (Returned (handle_start_download sid url SCheck),
                    emit (length (threads w)) already_running sid
                      (set_threads
                         (threads w
                            ++ [Running (handle_start_download sid url SCheck)])
                         w))
              else (Running (handle_start_download sid url SUrl),
                    set_threads
                      (threads w
                         ++ [Running (handle_start_download sid url SCheck)])
                      w)
          | None => (Running (handle_start_download sid url SUrl),
                     set_threads
                       (threads w
                          ++ [Running (handle_start_download sid url SCheck)])
                       w)
          end
          = (Running (handle_start_download sid url SUrl),
             set_threads
               (threads w ++ [Running (handle_start_download sid url SCheck)])
               w)) as ->.
  { destruct Hnodup as [-> | ->]; [done | by case_match]. }
  simpl. rewrite Hurl. simpl. rewrite iter_Returned. simpl.
  by rewrite insert_self.
Qed.

Lemma missing_url_rejected_witness :
  let w' := serve (start_download "s1" (Some "")) [no; yes] downloading in
  truthy_opt (Some "") = false
  ∧ outbox w' = outbox downloading ++ [Emitted 2 "s1" no_url]
  ∧ child_processes w' = child_processes downloading
  ∧ heap w' = heap downloading.
Proof.
  intros w'.
  pose proof (missing_url_rejected downloading "s1" (Some "") no yes []
                (or_intror eq_refl) eq_refl) as (H1 & H2 & H3 & _).
  split; [reflexivity|]. split; [exact H1|]. split; [exact H2 | exact H3].
Defined.

(** X2.  A start request with a URL for a session that has no entry, when
    [pexpect.spawn] returns: exactly one object is created, spawned as
    [gamdl] with the cookies path, the output path, the mp4decrypt path and
    then the URL as given, echo off, 24 rows by 80 columns, TERM
    xterm-256color; it is stored under the session and under no other key;
    exactly one reader is started, for that session and that object; and
    the session is told "gamdl process started for <url>. Waiting for
    output...". *)
Theorem fresh_start_registers (w : World) (sid : string)
    (apple_music_url : string) (e1 e2 e3 e4 e5 e6 : env) (es : list env) :
  child_processes w !! sid = None →
  truthy apple_music_url = true →
  raises e3 = None →
  let t := length (threads w) in
  let child := length (heap w) in
  let w' := serve (start_download sid (Some apple_music_url))
              (e1 :: e2 :: e3 :: e4 :: e5 :: e6 :: es) w in
  heap w' =
    heap w ++
    [Spawn "gamdl"
       ["--cookies-path"; "/app/config/cookies.txt";
        "--output-path"; "/app/music";
        "--mp4decrypt-path"; "/usr/local/bin/mp4decrypt";
        apple_music_url]
       false (24, 80) "xterm-256color" [] false]
  ∧ child_processes w' !! sid = Some child
  ∧ (∀ sid', sid' ≠ sid →
       child_processes w' !! sid' = child_processes w !! sid')
  ∧ threads w' =
      threads w
        ++ [Returned (handle_start_download sid (Some apple_music_url) SEmit);
            Running (read_gamdl_output sid child PRead)]
  ∧ outbox w' = outbox w ++ [Emitted t sid (started apple_music_url)].
Proof.
  intros Hreg Hurl Hspawn. cbv zeta. rewrite serve_iter. unfold arrived.
  simpl. rewrite Hreg. simpl. rewrite Hurl. simpl. rewrite Hspawn. simpl.
  rewrite iter_Returned. simpl.
  split; [done|]. split; [by rewrite lookup_insert_eq|].
  split; [by intros sid' Hne; rewrite lookup_insert_ne|]. split; [|done].
  rewrite <- app_assoc. simpl. by rewrite insert_self.
Qed.

Lemma fresh_start_registers_witness :
  let w' := serve (start_download "s2" (Some album))
              [yes; yes; yes; yes; yes; yes] downloading in
  child_processes downloading !! "s2" = None
  ∧ child_processes w' !! "s2" = Some 1
  ∧ child_processes w' !! "s1" = Some 0
  ∧ length (heap w') = 2.
Proof.
  intros w'.
  pose proof (fresh_start_registers downloading "s2" album
                yes yes yes yes yes yes []
                ltac:(vm_compute; reflexivity) eq_refl eq_refl)
    as (H1 & H2 & H3 & _).
  split; [vm_compute; reflexivity|]. split; [exact H2|].
  split.
  - fold w' in H3. rewrite (H3 "s1") by done. vm_compute. reflexivity.
  - fold w' in H1. rewrite H1. reflexivity.
Defined.

(** ** The reader, continued *)

(** X3.  While the process lives and writes nothing the reader is silent:
    any number of turns of the loop in which the read times out (l.41) and
    [isalive()] is true (l.43, l.47) leave the whole world as it was, the
    reader back in front of the read.  No message, no call on the process,
    no change of [child_processes]. *)
Theorem timeouts_are_silent (w : World) (t : tid) (sid : string)
    (h : handle) (l : list (env * env)) :
  threads w !! t = Some (Running (read_gamdl_output sid h PRead)) →
  Forall timeout_round l →
  run_thread t (rounds l) w = w.
Proof.
  intros Ht Hl. induction Hl as [|[a b] l [(x & Hx & Hc) Hb] _ IH]; [done|].
  unfold rounds. rewrite bind_cons. simpl in *.
  unfold run_thread. rewrite !fmap_cons, !run_cons.
  assert (step (step w (Run t a)) (Run t b) = w) as ->; [|exact IH].
  apply lookup_lt_Some in Ht as Hlt.
  assert (step w (Run t a)
          = put_thread t (Running (read_gamdl_output sid h PCheckAlive)) w)
    as ->.
  { rewrite (step_Run _ _ _ _ Ht). simpl. by rewrite Hx, Hc. }
  rewrite (step_Run _ _ _ (read_gamdl_output sid h PCheckAlive))
    by (unfold put_thread; simpl; by apply list_lookup_insert_eq).
  cbn [frame_step pump_step]. rewrite Hb. cbn [negb fst snd].
  rewrite put_thread_put. by apply put_thread_id.
Qed.

Lemma timeouts_are_silent_witness :
  let quiet := (raising true TIMEOUT "Timeout exceeded.", yes) in
  Forall timeout_round [quiet; quiet; quiet]
  ∧ run_thread 1 (rounds [quiet; quiet; quiet]) downloading = downloading.
Proof.
  intros quiet.
  assert (Forall timeout_round [quiet; quiet; quiet]) as H.
  { repeat constructor; by eexists. }
  split; [exact H|].
  exact (timeouts_are_silent downloading 1 "s1" 0 _ eq_refl H).
Defined.

(** ** Disconnect, continued *)


(** ** Input *)



(** X6.  Input for a session that has no entry, or whose process answers
    [isalive()] with false, is not sent anywhere: no method is called on
    any object, the session gets the info message "No active gamdl process
    for your session, or process has ended. Input not sent.", and a dead
    entry is left in [child_processes]. *)
Theorem input_without_process (w : World) (sid : string)
    (user_input : string) (e1 : env) (es : list env) :
  (child_processes w !! sid = None ∨ alive e1 = false) →
  let t := length (threads w) in
  let w' := serve (send_input sid (Some user_input)) (e1 :: es) w in
  heap w' = heap w
  ∧ outbox w' = outbox w ++ [Emitted t sid no_active_process]
  ∧ child_processes w' = child_processes w
  ∧ threads w' =
      threads w ++ [Returned (handle_send_input sid (Some user_input) ICheck)].
Proof.
  intros Hno. cbv zeta. rewrite serve_iter. unfold arrived. simpl.
  destruct (child_processes w !! sid) as [h|] eqn:Hreg.
  - destruct Hno as [?| ->]; [done|]. rewrite iter_Returned. simpl.
    by rewrite insert_self.
  - rewrite iter_Returned. simpl. by rewrite insert_self.
Qed.

Lemma input_without_process_witness :
  let w' := serve (send_input "s1" (Some "y")) [no] downloading in
  heap w' = heap downloading
  ∧ outbox w' = outbox downloading ++ [Emitted 2 "s1" no_active_process]
  ∧ child_processes w' !! "s1" = Some 0.
Proof.
  intros w'.
  pose proof (input_without_process downloading "s1" "y" no []
                (or_intror eq_refl)) as (H1 & H2 & H3 & _).
  split; [exact H1|]. split; [exact H2|].
  fold w' in H3. rewrite H3. vm_compute. reflexivity.
Defined.

(** X7.  When [send()] raises, the exception does not leave
    [handle_send_input]: the session gets an error message that carries
    [str(e)] after "Error sending input to gamdl for SID <sid>: ", the
    handler returns, and [child_processes] is as before. *)
Theorem input_error_reported (w : World) (sid : string)
    (user_input : string) (h : handle) (x : exn) (e1 e2 : env)
    (es : list env) :
  child_processes w !! sid = Some h →
  alive e1 = true →
  raises e2 = Some x →
  let t := length (threads w) in
  let w' := serve (send_input sid (Some user_input)) (e1 :: e2 :: es) w in
  outbox w' =
    outbox w
      ++ [Emitted t sid
            (error_message
               ("Error sending input to gamdl for SID " +:+ sid +:+ ": "
                  +:+ e_str x))]
  ∧ child_processes w' = child_processes w
  ∧ threads w' =
      threads w
        ++ [Returned (handle_send_input sid (Some user_input) (ISend h))].
Proof.
  intros Hreg Hal Hsend. cbv zeta. rewrite serve_iter. unfold arrived. simpl.
  rewrite Hreg, Hal. simpl. rewrite Hsend, iter_Returned. simpl.
  by rewrite insert_self.
Qed.

Lemma input_error_reported_witness :
  let w' := serve (send_input "s1" (Some "y"))
              [yes; raising true OtherException "[Errno 5] Input/output error"]
              downloading in
  child_processes downloading !! "s1" = Some 0
  ∧ outbox w' =
      outbox downloading
        ++ [Emitted 2 "s1"
              (error_message
                 "Error sending input to gamdl for SID s1: [Errno 5] Input/output error")].
Proof.
  intros w'.
  pose proof (input_error_reported downloading "s1" "y" 0
                (Exn OtherException "[Errno 5] Input/output error") yes
                (raising true OtherException "[Errno 5] Input/output error")
                [] ltac:(vm_compute; reflexivity) eq_refl eq_refl)
    as (H1 & _).
  split; [vm_compute; reflexivity | exact H1].
Defined.

(** X8.  An input event without an "input" key ([data_dict.get('input')] is
    [None], l.163-167) is dropped: whatever the state of the session, the
    handler returns at once and the world is as before, but for the
    handler's own thread. *)
Theorem input_none_dropped (w : World) (sid : string) (e1 : env)
    (es : list env) :
  serve (send_input sid None) (e1 :: es) w
  = set_threads
      (threads w ++ [Returned (handle_send_input sid None ICheck)]) w.
Proof.
  rewrite serve_iter. unfold arrived. simpl. rewrite iter_Returned. simpl.
  unfold put_thread. simpl. rewrite insert_self. by destruct w.
Qed.

(** ** What the threads share *)

(** X9.  In every reachable world no two readers have the same process:
    a pexpect object is read, and closed, by one thread only. *)
Theorem readers_do_not_share_process (w : World) (t1 t2 : tid)
    (th1 th2 : thread) (sid1 sid2 : string) (h : handle)
    (pc1 pc2 : pump_pc) :
  reachable w →
  threads w !! t1 = Some th1 →
  threads w !! t2 = Some th2 →
  frame_of th1 = read_gamdl_output sid1 h pc1 →
  frame_of th2 = read_gamdl_output sid2 h pc2 →
  t1 = t2.
Proof.
  intros Hr H1 H2 Hf1 Hf2. destruct (registry_inv_reachable w Hr) as [_ Hu _].
  apply (Hu t1 t2 th1 th2 sid1 sid2 h H1 H2).
  - unfold owner. by rewrite Hf1.
  - unfold owner. by rewrite Hf2.
Qed.

Lemma readers_do_not_share_process_witness :
  reachable two_sessions
  ∧ threads two_sessions !! 1 = Some (Running (read_gamdl_output "s1" 0 PRead))
  ∧ threads two_sessions !! 3 = Some (Running (read_gamdl_output "s2" 1 PRead))
  ∧ (1 = 1).
Proof.
  assert (reachable two_sessions) as Hr.
  { destruct (reachable_step downloading (Arrive (start_download "s2" (Some album))))
      as [evs Hevs]; [by exists start_s1|].
    eexists (evs ++ [Run 2 yes; Run 2 yes; Run 2 yes; Run 2 yes; Run 2 yes;
                     Run 2 yes]).
    rewrite run_app, <- Hevs. reflexivity. }
  split; [exact Hr|]. split; [reflexivity|]. split; [reflexivity|].
  exact (readers_do_not_share_process two_sessions 1 1 _ _ "s1" "s1" 0
           PRead PRead Hr eq_refl eq_refl eq_refl eq_refl).
Defined.

(** X10.  In every reachable world every message in the outbox is addressed
    to the room of the session whose thread emitted it: no handler and no
    reader ever emits to another session. *)
Theorem messages_stay_in_session (w : World) (m : emitted) :
  reachable w →
  m ∈ outbox w →
  ∃ th, threads w !! em_by m = Some th ∧ em_room m = sid_of (frame_of th).
Proof.
  intros Hr Hm. pose proof (history_inv_reachable w Hr (em_by m)) as H.
  assert (m ∈ msgs_by (em_by m) (outbox w)) as Hin
    by (by apply list_elem_of_filter).
  destruct (threads w !! em_by m) as [th|].
  - exists th. split; [done|]. destruct H as (Hroom & _).
    by apply (proj1 (Forall_forall _ _) Hroom).
  - destruct H as [Hnil _]. rewrite Hnil in Hin. by apply elem_of_nil in Hin.
Qed.

Lemma messages_stay_in_session_witness :
  let m := Emitted 1 "s1" (gamdl_output "done") in
  reachable (run three_reads init)
  ∧ m ∈ outbox (run three_reads init)
  ∧ ∃ th, threads (run three_reads init) !! 1 = Some th
          ∧ "s1" = sid_of (frame_of th).
Proof.
  intros m.
  assert (reachable (run three_reads init)) as Hr by (by exists three_reads).
  assert (m ∈ outbox (run three_reads init)) as Hm.
  { apply list_elem_of_lookup. by exists 2. }
  split; [exact Hr|]. split; [exact Hm|].
  exact (messages_stay_in_session _ m Hr Hm).
Defined.





(** ** The pexpect objects *)

(** What one statement can do to the heap of pexpect objects: nothing; one
    call other than [close()] on the object the handler has in hand; the
    [close()] of the reader at l.63 on its own object; or the new object of
    l.132 at the end. *)
Lemma frame_step_heap t e f w :
  heap (frame_step t e f w).2 = heap w
  ∨ (∃ h c, in_hand (Running f) = Some h ∧ is_close c = false
            ∧ heap (frame_step t e f w).2 = alter (called [c]) h (heap w))
  ∨ (∃ sid h, f = read_gamdl_output sid h PClose
              ∧ past_close (frame_step t e f w).1 = true
              ∧ (heap (frame_step t e f w).2
                   = alter (called [close]) h (heap w)
                 ∨ heap (frame_step t e f w).2
                   = alter (mark_closed ∘ called [close]) h (heap w)))
  ∨ (∃ sid url, f = handle_start_download sid url SSpawn
                ∧ heap (frame_step t e f w).2
                  = heap w ++ [new_child (default "" url)]).
Proof.
  destruct f as [sid h pc|sid|sid pc|sid url pc|sid inp pc];
    [destruct pc| |destruct pc as [|[?|]|?|?|?|]|destruct pc|destruct pc];
    simpl; unfold escalate; repeat (case_match; simplify_eq/=);
    rewrite ?alter_record, ?list_alter_alter_eq;
    first [ by left
          | right; left; eexists _, _; split; [reflexivity|];
            split; [|reflexivity]; reflexivity
          | right; right; left; eexists _, _; split; [done|];
            split; [done|]; by eauto
          | right; right; right; by eexists _, _ ].
Qed.

Lemma config_called cs o : config (called cs o) = config o.
Proof. done. Qed.

Lemma config_mark_closed o : config (mark_closed o) = config o.
Proof. done. Qed.

(** The only way to l.113-138 is through the test of l.108. *)
Lemma frame_step_to_spawn t e f w sid url :
  (frame_step t e f w).1 = Running (handle_start_download sid url SSpawn) →
  truthy_opt url = true.
Proof.
  destruct f as [sid0 h pc|sid0|sid0 pc|sid0 url0 pc|sid0 inp pc];
    [destruct pc| |destruct pc as [|[?|]|?|?|?|]|destruct pc|destruct pc];
    simpl; unfold escalate; repeat (case_match; simplify_eq/=);
    intros; simplify_eq/=.
  by destruct (truthy_opt url).
Qed.

(** The threads of the world after a step: the ones that were there, the
    one that made the step, and the reader it may have started. *)
Lemma lookup_after_step w t0 e f0 t th :
  threads w !! t0 = Some (Running f0) →
  threads (step w (Run t0 e)) !! t = Some th →
  (t = t0 ∧ th = (frame_step t0 e f0 w).1)
  ∨ (t ≠ t0 ∧ threads w !! t = Some th)
  ∨ (t = length (threads w) ∧ forks f0 = [th]).
Proof.
  intros Ht0 Hl. rewrite (step_Run _ _ _ f0) in Hl by done.
  unfold put_thread in Hl. simpl in Hl. rewrite frame_step_threads in Hl.
  apply lookup_lt_Some in Ht0 as Hlt.
  rewrite lookup_put in Hl by (rewrite length_app; lia).
  case_decide; simplify_eq; [by left|].
  apply lookup_app_Some in Hl as [Hl|[Hge Hl]]; [by right; left|].
  right; right.
  destruct f0 as [| | |? ? []|]; simpl in *;
    try (by rewrite lookup_nil in Hl).
  apply list_lookup_singleton_Some in Hl as [? <-]. split; [lia|done].
Qed.

Lemma spawn_inv_reachable w : reachable w → spawn_inv w.
Proof.
  revert w. apply reachable_ind.
  { split; [by intros [|t]|by intros [|h]]. }
  intros w [r|t0 e] _ [IH1 IH2].
  { split; [|done]. intros t sid url Hl. simpl in Hl.
    apply lookup_app_Some in Hl as [Hl|[_ Hl]]; [by eapply IH1|].
    apply list_lookup_singleton_Some in Hl as [_ Hl]. by destruct r. }
  destruct (threads w !! t0) as [[f0| |]|] eqn:Ht0;
    try (by rewrite step_not_running by (intros f'; congruence)).
  split.
  - intros t sid url Hl.
    destruct (lookup_after_step _ _ _ _ _ _ Ht0 Hl)
      as [[-> Hs]|[[_ Hold]|[_ Hf]]].
    + by eapply frame_step_to_spawn.
    + by eapply IH1.
    + destruct f0 as [| | |? ? []|]; by simplify_eq/=.
  - intros h o Hl. rewrite (step_Run _ _ _ f0) in Hl by done.
    unfold put_thread in Hl. simpl in Hl.
    destruct (frame_step_heap t0 e f0 w)
      as [Hh|[(h' & c & _ & _ & Hh)|[(sid & h' & _ & _ & [Hh|Hh])
         |(sid & url & -> & Hh)]]]; rewrite Hh in Hl.
    + by eapply IH2.
    + rewrite list_lookup_alter in Hl. case_decide; [|by eapply IH2].
      subst. destruct (heap w !! h) as [o0|] eqn:Ho; simplify_eq/=.
      destruct (IH2 _ _ Ho) as (u & ? & ?). by exists u.
    + rewrite list_lookup_alter in Hl. case_decide; [|by eapply IH2].
      subst. destruct (heap w !! h) as [o0|] eqn:Ho; simplify_eq/=.
      destruct (IH2 _ _ Ho) as (u & ? & ?). by exists u.
    + rewrite list_lookup_alter in Hl. case_decide; [|by eapply IH2].
      subst. destruct (heap w !! h) as [o0|] eqn:Ho; simplify_eq/=.
      destruct (IH2 _ _ Ho) as (u & ? & ?). by exists u.
    + apply lookup_app_Some in Hl as [Hl|[_ Hl]]; [by eapply IH2|].
      apply list_lookup_singleton_Some in Hl as [_ <-].
      specialize (IH1 _ _ _ Ht0). destruct url as [u|]; [|done].
      by exists u.
Qed.

(** X13.  In every reachable world every pexpect object was spawned by
    l.132-138 and is as it was spawned: the command is [gamdl], the
    arguments are the cookies path, the output path, the mp4decrypt path
    and, last, a non-empty URL; echo is off, the terminal is 24 by 80 and
    TERM is xterm-256color.  No handler spawns anything else, none spawns
    without a URL, and no call changes how an object was spawned. *)
Theorem every_process_is_gamdl (w : World) (h : handle) (o : spawn) :
  reachable w →
  heap w !! h = Some o →
  ∃ apple_music_url,
    truthy apple_music_url = true
    ∧ command o = "gamdl"
    ∧ args o = ["--cookies-path"; "/app/config/cookies.txt";
                "--output-path"; "/app/music";
                "--mp4decrypt-path"; "/usr/local/bin/mp4decrypt";
                apple_music_url]
    ∧ echo o = false
    ∧ dimensions o = (24, 80)
    ∧ env_TERM o = "xterm-256color".
Proof.
  intros Hr Hl. destruct (spawn_inv_reachable w Hr) as [_ H].
  destruct (H _ _ Hl) as (u & Hu & Hc). exists u.
  unfold config in Hc. simpl in Hc. by simplify_eq.
Qed.

Lemma every_process_is_gamdl_witness :
  let w := run eof_then_closed init in
  reachable w
  ∧ heap w !! 0 = Some (mark_closed (called [close] (new_child album)))
  ∧ ∃ u, truthy u = true ∧ command (mark_closed (called [close] (new_child album))) = "gamdl"
         ∧ args (mark_closed (called [close] (new_child album)))
           = ["--cookies-path"; "/app/config/cookies.txt";
              "--output-path"; "/app/music";
              "--mp4decrypt-path"; "/usr/local/bin/mp4decrypt"; u]
         ∧ echo (mark_closed (called [close] (new_child album))) = false
         ∧ dimensions (mark_closed (called [close] (new_child album)))
           = (24, 80)
         ∧ env_TERM (mark_closed (called [close] (new_child album)))
           = "xterm-256color".
Proof.
  intros w.
  assert (reachable w) as Hr by (by exists eof_then_closed).
  split; [exact Hr|]. split; [reflexivity|].
  exact (every_process_is_gamdl w 0 _ Hr eq_refl).
Defined.

Lemma lookup_step_self w t e f :
  threads w !! t = Some (Running f) →
  threads (step w (Run t e)) !! t = Some (frame_step t e f w).1.
Proof.
  intros Ht. rewrite (step_Run _ _ _ f) by done. unfold put_thread. simpl.
  apply list_lookup_insert_eq. rewrite frame_step_threads, length_app.
  apply lookup_lt_Some in Ht. lia.
Qed.

Lemma lookup_step_other w ev t th :
  (∀ e, ev ≠ Run t e) →
  threads w !! t = Some th →
  threads (step w ev) !! t = Some th.
Proof.
  intros Hne Ht. destruct ev as [r|t0 e]; [by apply lookup_app_l_Some|].
  destruct (threads w !! t0) as [[f0| |]|] eqn:Ht0;
    try (by rewrite step_not_running by (intros f'; congruence)).
  rewrite (step_Run _ _ _ f0) by done. unfold put_thread. simpl.
  rewrite list_lookup_insert_ne by (intros ->; by apply (Hne e)).
  rewrite frame_step_threads. by apply lookup_app_l_Some.
Qed.

(** A reader that has passed l.63 keeps its process and stays past it. *)
Lemma frame_step_past_close t e f w :
  past_close (Running f) = true →
  owner (frame_step t e f w).1 = owner (Running f)
  ∧ past_close (frame_step t e f w).1 = true.
Proof.
  destruct f as [sid h pc|sid|sid pc|sid url pc|sid inp pc]; try done.
  destruct pc; try done; simpl; by repeat case_match.
Qed.

Lemma past_close_persists w ev t th sid h :
  threads w !! t = Some th →
  owner th = Some (sid, h) →
  past_close th = true →
  ∃ th', threads (step w ev) !! t = Some th' ∧ owner th' = Some (sid, h)
         ∧ past_close th' = true.
Proof.
  intros Ht Ho Hp.
  assert ((∃ e, ev = Run t e) ∨ ∀ e, ev ≠ Run t e) as [[e ->]|Hne].
  { destruct ev as [r|t0 e]; [by right|].
    destruct (decide (t0 = t)) as [->|?]; [left; by exists e|].
    right. by intros e' [= ]. }
  - destruct th as [f| |].
    + exists (frame_step t e f w).1. split; [by apply lookup_step_self|].
      destruct (frame_step_past_close t e f w Hp) as [-> ?]. done.
    + exists (Returned f).
      by rewrite step_not_running by (intros f'; congruence).
    + exists (Raised f e0).
      by rewrite step_not_running by (intros f'; congruence).
  - exists th. split; [|done]. by apply lookup_step_other.
Qed.

Lemma closes_called cs o :
  closes (called cs o) = closes o + length (filter is_close cs).
Proof. unfold closes. simpl. by rewrite filter_app, length_app. Qed.

Lemma closes_mark_closed o : closes (mark_closed o) = closes o.
Proof. done. Qed.

Lemma close_inv_reachable w : reachable w → close_inv w.
Proof.
  revert w. apply reachable_ind; [by intros [|h]|].
  intros w ev Hr IH h o Hl.
  assert (∀ o0, heap w !! h = Some o0 → closes o = closes o0 →
                closed o = closed o0 →
                closes o ≤ 1 ∧ (closed o = true → closes o = 1)
                ∧ (closes o = 1 →
                   ∃ t th sid, threads (step w ev) !! t = Some th
                               ∧ owner th = Some (sid, h)
                               ∧ past_close th = true)) as Hsame.
  { intros o0 Ho0 Hc Hd. destruct (IH _ _ Ho0) as (H1 & H2 & H3).
    rewrite Hc, Hd. split; [done|]. split; [done|]. intros H.
    destruct (H3 H) as (t & th & sid & Ht & Hown & Hp).
    destruct (past_close_persists w ev t th sid h Ht Hown Hp)
      as (th' & ? & ? & ?).
    by exists t, th', sid. }
  destruct ev as [r|t0 e]; [by eapply Hsame|].
  destruct (threads w !! t0) as [[f0| |]|] eqn:Ht0;
    try (rewrite step_not_running in Hl by (intros f'; congruence);
         by eapply Hsame).
  pose proof Hl as Hl'. rewrite (step_Run _ _ _ f0) in Hl' by done.
  unfold put_thread in Hl'. simpl in Hl'.
  destruct (frame_step_heap t0 e f0 w)
    as [Hh|[(h' & c & _ & Hc & Hh)|[(sid & h' & -> & Hp & Hh)
       |(sid & url & -> & Hh)]]].
  - rewrite Hh in Hl'. by eapply Hsame.
  - rewrite Hh, list_lookup_alter in Hl'. case_decide; [|by eapply Hsame].
    subst. destruct (heap w !! h) as [o0|] eqn:Ho; simplify_eq/=.
    eapply Hsame; [done| |done]. rewrite closes_called. simpl.
    rewrite filter_cons, filter_nil. rewrite Hc. simpl. lia.
  - destruct (decide (h' = h)) as [->|Hne].
    2: { destruct Hh as [Hh|Hh]; rewrite Hh, list_lookup_alter_ne in Hl'
           by done; by eapply Hsame. }
    destruct (heap w !! h) as [o0|] eqn:Ho.
    2: { destruct Hh as [Hh|Hh];
           rewrite Hh, list_lookup_alter_eq, Ho in Hl'; done. }
    assert (closes o0 = 0) as Hzero.
    { destruct (IH _ _ Ho) as (H1 & _ & H3).
      destruct (decide (closes o0 = 1)) as [Hone|?]; [|lia].
      destruct (H3 Hone) as (t & th & sid' & Ht & Hown & Hpast).
      destruct (registry_inv_reachable w Hr) as [_ Hu _].
      assert (t = t0) as -> by (by eapply (Hu t t0 _ _ sid' sid h)).
      by simplify_eq. }
    assert (closes o = 1) as Hone.
    { destruct Hh as [Hh|Hh];
        rewrite Hh, list_lookup_alter_eq, Ho in Hl'; simplify_eq/=;
        rewrite ?closes_mark_closed, closes_called, Hzero; done. }
    split; [lia|]. split; [done|]. intros _.
    exists t0, (frame_step t0 e (read_gamdl_output sid h PClose) w).1, sid.
    split; [by apply lookup_step_self|]. split; [|done].
    simpl. by case_match.
  - rewrite Hh in Hl'.
    apply lookup_app_Some in Hl' as [Hl'|[_ Hl']]; [by eapply Hsame|].
    apply list_lookup_singleton_Some in Hl' as [_ <-].
    split; [by compute; lia|]. split; done.
Qed.

(** X14.  In every reachable world [close()] has been called at most once
    on a pexpect object, and only by the reader of that object at l.63:
    an object with a [close()] call has a reader that is past l.63, and an
    object marked closed has exactly one [close()] call.  No handler ever
    closes a process, and no reader closes twice. *)
Theorem close_at_most_once (w : World) (h : handle) (o : spawn) :
  reachable w →
  heap w !! h = Some o →
  closes o ≤ 1
  ∧ (closed o = true → closes o = 1)
  ∧ (closes o = 1 →
     ∃ t th sid, threads w !! t = Some th ∧ owner th = Some (sid, h)
                 ∧ past_close th = true).
Proof. intros Hr Hl. by apply close_inv_reachable. Qed.

Lemma close_at_most_once_witness :
  let w := run eof_then_closed init in
  let o := mark_closed (called [close] (new_child album)) in
  reachable w
  ∧ heap w !! 0 = Some o
  ∧ closes o ≤ 1.
Proof.
  intros w o.
  assert (reachable w) as Hr by (by exists eof_then_closed).
  split; [exact Hr|]. split; [reflexivity|].
  exact (proj1 (close_at_most_once w 0 o Hr eq_refl)).
Defined.

(** ** Sessions are kept apart *)

Lemma frame_step_heap_length t e f w :
  length (heap w) ≤ length (heap (frame_step t e f w).2).
Proof.
  destruct (frame_step_heap t e f w)
    as [->|[(h & c & _ & _ & ->)|[(sid & h & _ & _ & [->| ->])
       |(sid & url & _ & ->)]]];
    rewrite ?length_alter, ?length_app; lia.
Qed.

(** The process a thread has in hand stays in the hand of that thread, or
    goes to the reader the thread starts. *)
Lemma frame_step_owner t e f w p :
  owner (Running f) = Some p →
  owner (frame_step t e f w).1 = Some p
  ∨ ∃ th, forks f = [th] ∧ owner th = Some p.
Proof.
  destruct f as [sid h pc|sid|sid pc|sid url pc|sid inp pc]; try done.
  - intros. left. destruct pc; simpl; by repeat case_match.
  - destruct pc; try done; simpl; intros; simplify_eq; [by left|].
    right. by eexists.
Qed.

Lemma spawned_for_step w ev sid h :
  spawned_for w sid h → spawned_for (step w ev) sid h.
Proof.
  intros [Hlt (t & th & Ht & Ho)]. split.
  - eapply Nat.lt_le_trans; [done|]. destruct ev as [r|t0 e]; [done|].
    destruct (threads w !! t0) as [[f0| |]|] eqn:Ht0;
      try (by rewrite step_not_running by (intros f'; congruence)).
    rewrite (step_Run _ _ _ f0) by done. apply frame_step_heap_length.
  - assert ((∃ e, ev = Run t e) ∨ ∀ e, ev ≠ Run t e) as [[e ->]|Hne].
    { destruct ev as [r|t0 e]; [by right|].
      destruct (decide (t0 = t)) as [->|?]; [left; by exists e|].
      right. by intros e' [= ]. }
    + destruct th as [f| |];
        try (exists t; eexists;
             by rewrite step_not_running by (intros f'; congruence)).
      destruct (frame_step_owner t e f w _ Ho) as [Ho'|(th' & Hf & Ho')].
      * exists t, (frame_step t e f w).1. split; [|done].
        by apply lookup_step_self.
      * exists (length (threads w)), th'. split; [|done].
        rewrite (step_Run _ _ _ f) by done. unfold put_thread. simpl.
        apply lookup_lt_Some in Ht as Hl.
        rewrite list_lookup_insert_ne by lia.
        rewrite frame_step_threads, Hf. by apply list_lookup_middle.
    + exists t, th. split; [|done]. by apply lookup_step_other.
Qed.

(** Where the process a handler has in hand comes from: it had it before,
    or it has just taken it out of [child_processes] under its own
    session (l.83, l.170). *)
Lemma frame_step_in_hand t e f w h :
  in_hand (frame_step t e f w).1 = Some h →
  in_hand (Running f) = Some h ∨ child_processes w !! sid_of f = Some h.
Proof.
  destruct f as [sid h0 pc|sid|sid pc|sid url pc|sid inp pc];
    [destruct pc| |destruct pc as [|[?|]|?|?|?|]|destruct pc|destruct pc];
    simpl; unfold escalate; repeat (case_match; simplify_eq/=);
    intros; simplify_eq/=; auto.
Qed.

Lemma frame_step_sid t e f w :
  sid_of (frame_of (frame_step t e f w).1) = sid_of f.
Proof.
  destruct (frame_step_history t e f w) as (? & ? & ? & ? & ? & H & ?).
  exact H.
Qed.

Lemma hand_inv_reachable w : reachable w → hand_inv w.
Proof.
  revert w. apply reachable_ind; [by intros [|t]|].
  intros w ev Hr IH t th h Ht Hh.
  assert (∀ th0, threads w !! t = Some th0 → in_hand th0 = Some h →
                 sid_of (frame_of th0) = sid_of (frame_of th) →
                 spawned_for (step w ev) (sid_of (frame_of th)) h) as Hold.
  { intros th0 Ht0 Hh0 <-. apply spawned_for_step. by eapply IH. }
  destruct ev as [r|t0 e].
  { simpl in Ht. apply lookup_app_Some in Ht as [Ht|[_ Ht]];
      [by eapply Hold|].
    apply list_lookup_singleton_Some in Ht as [_ <-]. by destruct r. }
  destruct (threads w !! t0) as [[f0| |]|] eqn:Ht0;
    try (rewrite step_not_running in Ht by (intros f'; congruence);
         by eapply Hold).
  destruct (lookup_after_step _ _ _ _ _ _ Ht0 Ht)
    as [[-> ->]|[[_ Ht']|[_ Hf]]].
  - rewrite frame_step_sid.
    destruct (frame_step_in_hand _ _ _ _ _ Hh) as [Hh0|Hreg].
    + apply spawned_for_step. by apply (IH t0 (Running f0)).
    + apply spawned_for_step.
      destruct (registry_inv_reachable w Hr) as [Hb _ Hhold].
      destruct (Hhold _ _ Hreg) as (t' & th' & Ht' & Ho & _).
      split; [by eapply Hb|by exists t', th'].
  - by eapply Hold.
  - destruct f0 as [| | |? ? []|]; by simplify_eq/=.
Qed.

(** X15.  In every reachable world the process a handler is about to call
    [sendeof()], [terminate()] or [send()] on was spawned for the session
    of that handler: a session never signals, and never writes to, the
    process of another session. *)
Theorem handlers_touch_own_process (w : World) (t : tid) (th : thread)
    (h : handle) :
  reachable w →
  threads w !! t = Some th →
  in_hand th = Some h →
  spawned_for w (sid_of (frame_of th)) h.
Proof. intros Hr Ht Hh. by apply (hand_inv_reachable w Hr t th h). Qed.

Lemma handlers_touch_own_process_witness :
  let w := step (step (run disconnect_popped init) (Run 2 yes)) (Run 2 yes) in
  reachable w
  ∧ threads w !! 2 = Some (Running (handle_disconnect "s1" (DTerm 0)))
  ∧ spawned_for w "s1" 0.
Proof.
  intros w.
  assert (reachable w) as Hr.
  { do 2 apply reachable_step. by exists disconnect_popped. }
  split; [exact Hr|]. split; [reflexivity|].
  exact (handlers_touch_own_process w 2 _ 0 Hr eq_refl eq_refl).
Defined.

(** X16.  One statement of a thread leaves the other sessions alone: the
    entries of [child_processes] under every other session id, and the
    room membership of every other session, are as they were. *)
Theorem other_sessions_untouched (w : World) (t : tid) (e : env)
    (f : frame) (sid' : string) :
  threads w !! t = Some (Running f) →
  sid' ≠ sid_of f →
  child_processes (step w (Run t e)) !! sid' = child_processes w !! sid'
  ∧ (sid' ∈ rooms (step w (Run t e)) ↔ sid' ∈ rooms w).
Proof.
  intros Ht Hne. rewrite (step_Run _ _ _ f) by done.
  unfold put_thread. simpl. clear Ht.
  destruct f as [sid h pc|sid|sid pc|sid url pc|sid inp pc];
    [destruct pc| |destruct pc as [|[?|]|?|?|?|]|destruct pc|destruct pc];
    simpl in Hne; simpl; unfold escalate;
    repeat (case_match; simplify_eq/=);
    rewrite ?lookup_delete_ne, ?lookup_insert_ne by done;
    (split; [done|]); try done.
  - rewrite elem_of_union, elem_of_singleton.
    split; [by intros [?|?] | by right].
  - rewrite elem_of_difference, elem_of_singleton.
    split; [by intros [? _] | by split].
Qed.

Lemma other_sessions_untouched_witness :
  threads two_sessions !! 1 = Some (Running (read_gamdl_output "s1" 0 PRead))
  ∧ child_processes (step two_sessions (Run 1 yes)) !! "s2"
    = child_processes two_sessions !! "s2".
Proof.
  split; [reflexivity|].
  exact (proj1 (other_sessions_untouched two_sessions 1 yes _ "s2"
                  eq_refl ltac:(discriminate))).
Defined.

(** ** The reader and the handlers together *)

(** X17.  In every reachable world a [gamdl_output] message in the outbox
    was emitted by a reader: no handler ever sends terminal output. *)
Theorem output_only_from_readers (w : World) (m : emitted) :
  reachable w →
  m ∈ outbox w →
  is_output m = true →
  ∃ th, threads w !! em_by m = Some th ∧ is_reader (frame_of th) = true.
Proof.
  intros Hr Hm Hout. pose proof (history_inv_reachable w Hr (em_by m)) as H.
  assert (m ∈ filter is_output (msgs_by (em_by m) (outbox w))) as Hin.
  { apply list_elem_of_filter. split; [by rewrite Hout|].
    by apply list_elem_of_filter. }
  destruct (threads w !! em_by m) as [th|].
  - exists th. split; [done|]. destruct H as (_ & Hfw & _ & Hnr).
    destruct (is_reader (frame_of th)); [done|].
    rewrite Hfw, Hnr in Hin by done. by apply elem_of_nil in Hin.
  - destruct H as [Hnil _]. rewrite Hnil in Hin. by apply elem_of_nil in Hin.
Qed.

Lemma output_only_from_readers_witness :
  let m := Emitted 1 "s1" (gamdl_output "done") in
  reachable (run three_reads init)
  ∧ m ∈ outbox (run three_reads init)
  ∧ ∃ th, threads (run three_reads init) !! 1 = Some th
          ∧ is_reader (frame_of th) = true.
Proof.
  intros m.
  assert (reachable (run three_reads init)) as Hr by (by exists three_reads).
  assert (m ∈ outbox (run three_reads init)) as Hm.
  { apply list_elem_of_lookup. by exists 2. }
  split; [exact Hr|]. split; [exact Hm|].
  exact (output_only_from_readers _ m Hr Hm eq_refl).
Defined.

Lemma forwarded_reads_app t sid es1 es2 :
  forwarded_reads t sid (es1 ++ es2)
  = forwarded_reads t sid es1 ++ forwarded_reads t sid es2.
Proof. unfold forwarded_reads. by rewrite fmap_app, filter_app, fmap_app. Qed.

(** X18.  As long as [read_nonblocking] returns, the reader stays in its
    loop: after any sequence of reads that return it is in front of the
    next read, it has emitted one [gamdl_output] per non-empty string, in
    order, and nothing else, and [child_processes] and the pexpect objects
    are untouched.  A read that returns the empty string neither emits nor
    ends the loop. *)
Theorem reads_keep_reader_running (w : World) (t : tid) (sid : string)
    (h : handle) (es : list env) :
  threads w !! t = Some (Running (read_gamdl_output sid h PRead)) →
  Forall (λ e, raises e = None) es →
  let w' := run_thread t es w in
  threads w' = threads w
  ∧ outbox w' = outbox w ++ forwarded_reads t sid es
  ∧ child_processes w' = child_processes w
  ∧ heap w' = heap w.
Proof.
  intros Ht Hes. cbv zeta. revert w Ht.
  induction Hes as [|e es He _ IH]; intros w Ht.
  { simpl. by rewrite app_nil_r. }
  unfold run_thread. rewrite fmap_cons, run_cons.
  fold (run_thread t es (step w (Run t e))).
  assert (threads (step w (Run t e)) = threads w
          ∧ outbox (step w (Run t e))
            = outbox w ++ forwarded_reads t sid [e]
          ∧ child_processes (step w (Run t e)) = child_processes w
          ∧ heap (step w (Run t e)) = heap w) as (H1 & H2 & H3 & H4).
  { rewrite (step_Run _ _ _ _ Ht). unfold put_thread. simpl. rewrite He.
    unfold forwarded_reads. simpl. rewrite filter_truthy_singleton.
    destruct (truthy (reads e)); simpl; rewrite ?app_nil_r;
      by rewrite list_insert_id. }
  destruct (IH (step w (Run t e))) as (I1 & I2 & I3 & I4);
    [by rewrite H1|].
  rewrite I1, I2, I3, I4, H1, H2, H3, H4.
  change (e :: es) with ([e] ++ es).
  by rewrite forwarded_reads_app, app_assoc.
Qed.

Lemma reads_keep_reader_running_witness :
  let es := [data "Downloading track 1..."; data ""; data "done"] in
  let w' := run_thread 1 es downloading in
  Forall (λ e, raises e = None) es
  ∧ threads w' = threads downloading
  ∧ outbox w' =
      outbox downloading
        ++ [forwarded 1 "s1" "Downloading track 1...";
            forwarded 1 "s1" "done"].
Proof.
  intros es w'.
  assert (Forall (λ e, raises e = None) es) as Hes by (by repeat constructor).
  destruct (reads_keep_reader_running downloading 1 "s1" 0 es eq_refl Hes)
    as (H1 & H2 & _).
  split; [exact Hes|]. split; [exact H1 | exact H2].
Defined.

(** The dictionary after the [finally] block, for a [close()] that
    returns. *)
Lemma finally_unregisters (w : World) (t : tid) (sid : string) (h : handle)
    (e1 e2 e3 e4 e5 : env) (es : list env) :
  threads w !! t = Some (Running (read_gamdl_output sid h PFinally)) →
  (alive e1 = true → raises e2 = None) →
  let w' := run_thread t (e1 :: e2 :: e3 :: e4 :: e5 :: es) w in
  child_processes w' = delete sid (child_processes w)
  ∧ threads w' = <[t := Returned (read_gamdl_output sid h PEmit)]> (threads w).
Proof.
  intros Ht Hclose. cbv zeta. rewrite (run_thread_iter _ _ _ _ Ht). simpl.
  destruct (alive e1) eqn:A1; simpl.
  - rewrite Hclose by done. simpl.
    destruct (child_processes w !! sid) as [h'|] eqn:Hreg; simpl;
      rewrite ?Hreg; simpl; rewrite ?iter_Returned; try done.
    by rewrite delete_id.
  - destruct (child_processes w !! sid) as [h'|] eqn:Hreg; simpl;
      rewrite ?Hreg; simpl; rewrite ?iter_Returned; try done.
    by rewrite delete_id.
Qed.

(** X19.  After the [finally] block of a reader (with a [close()] that
    returns) the session can start again: whatever [isalive()] answers, the
    next start request of the session passes the duplicate check of l.100
    and nothing is emitted for it there. *)
Theorem restart_after_completion (w : World) (t : tid) (sid : string)
    (h : handle) (e1 e2 e3 e4 e5 : env) (es : list env)
    (url : option string) (e' : env) :
  threads w !! t = Some (Running (read_gamdl_output sid h PFinally)) →
  (alive e1 = true → raises e2 = None) →
  let w1 := run_thread t (e1 :: e2 :: e3 :: e4 :: e5 :: es) w in
  let w2 := serve (start_download sid url) [e'] w1 in
  threads w2 !! length (threads w1)
    = Some (Running (handle_start_download sid url SUrl))
  ∧ outbox w2 = outbox w1.
Proof.
  intros Ht Hclose. cbv zeta.
  destruct (finally_unregisters w t sid h e1 e2 e3 e4 e5 es Ht Hclose)
    as [Hreg _].
  rewrite serve_iter. unfold arrived. simpl. rewrite Hreg, lookup_delete_eq.
  simpl. by rewrite insert_self, lookup_self.
Qed.

Lemma restart_after_completion_witness :
  let w := step downloading (Run 1 (raising false EOF "End Of File (EOF).")) in
  let w1 := run_thread 1 [no; yes; yes; yes; yes] w in
  let w2 := serve (start_download "s1" (Some album)) [yes] w1 in
  threads w !! 1 = Some (Running (read_gamdl_output "s1" 0 PFinally))
  ∧ threads w2 !! length (threads w1)
    = Some (Running (handle_start_download "s1" (Some album) SUrl)).
Proof.
  intros w w1 w2. split; [reflexivity|].
  exact (proj1 (restart_after_completion w 1 "s1" 0 no yes yes yes yes []
                  (Some album) yes eq_refl (λ H, eq_refl))).
Defined.

(** ** Connect *)

(** X20.  [handle_connect] only makes the client join the room of its
    session: it creates no entry in [child_processes], spawns nothing,
    emits nothing, and a session that connects and then disconnects with
    no process leaves [child_processes], the objects and the outbox as
    they were and is out of its room. *)
Theorem connect_then_disconnect (w : World) (sid : string) (e0 : env)
    (e1 e2 e3 : env) (es : list env) :
  child_processes w !! sid = None →
  let w1 := serve (connect sid) [e0] w in
  let w2 := serve (disconnect sid) (e1 :: e2 :: e3 :: es) w1 in
  (sid ∈ rooms w1 ∧ child_processes w1 = child_processes w
   ∧ heap w1 = heap w ∧ outbox w1 = outbox w)
  ∧ (sid ∉ rooms w2)
  ∧ child_processes w2 = child_processes w
  ∧ heap w2 = heap w
  ∧ outbox w2 = outbox w
  ∧ threads w2 = threads w ++ [Returned (handle_connect sid);
                               Returned (handle_disconnect sid DLeave)].
Proof.
  intros Hreg. cbv zeta.
  assert (serve (connect sid) [e0] w
          = set_threads (threads w ++ [Returned (handle_connect sid)])
              (set_rooms ({[sid]} ∪ rooms w) w)) as ->.
  { rewrite serve_iter. unfold arrived, put_thread. simpl.
    by rewrite insert_self. }
  split.
  { simpl. split; [|done]. apply elem_of_union_l. by apply elem_of_singleton. }
  rewrite serve_iter. unfold arrived. simpl. rewrite Hreg. simpl.
  rewrite iter_Returned. simpl.
  split; [|split; [by rewrite delete_id|]].
  - rewrite elem_of_difference, elem_of_singleton. by intros [_ ?].
  - do 2 (split; [done|]).
    rewrite (insert_self _ [] _ _). by rewrite <- app_assoc.
Qed.

Lemma connect_then_disconnect_witness :
  let w1 := serve (connect "s2") [yes] downloading in
  let w2 := serve (disconnect "s2") [yes; yes; yes] w1 in
  child_processes downloading !! "s2" = None
  ∧ "s2" ∈ rooms w1
  ∧ ("s2" ∉ rooms w2)
  ∧ child_processes w2 = child_processes downloading.
Proof.
  intros w1 w2.
  pose proof (connect_then_disconnect downloading "s2" yes yes yes yes []
                ltac:(vm_compute; reflexivity))
    as ((H1 & _) & H2 & H3 & _).
  split; [vm_compute; reflexivity|]. split; [exact H1|].
  split; [exact H2 | exact H3].
Defined.
